(** * Sudoku: the constraint engine of [main.py]

    A shallow embedding of the board, the validity scan
    [Game.is_sudoku_valid], the solvability search
    [Game.is_possible_sudoku_table], the generation search
    [Game._get_random_table] and the masking step of
    [Game.generate_table], followed by the properties proved of them.

    Python integers are [Z]; indices produced by [range] are [nat]; the
    [set()] objects of the validity scan are [gset Z]; the table is a list
    of rows of cells, read with total lookup and mutated in place with
    [alter].  Every index the program uses on a 9x9 table is in range, and
    the theorems below are stated for such tables ([table_wf]). *)

From stdpp Require Import base numbers option list list_numbers sets gmap.
From stdpp Require Import strings pretty.

(** ** Constants and cells *)

Definition EMPTY_VAL : Z := (-1)%Z.

(** [class Cell]: the position, the value and the three flags. *)
Record Cell : Type := mkCell {
  cell_i : nat;
  cell_j : nat;
  val : Z;
  is_clickable : bool;
  is_active : bool;
  is_valid : bool
}.

(** [Cell(i, j)]: the class attributes give the defaults. *)
Definition new_cell (i j : nat) : Cell :=
  {| cell_i := i; cell_j := j; val := EMPTY_VAL;
     is_clickable := true; is_active := false; is_valid := true |}.

Global Instance Cell_inhabited : Inhabited Cell := populate (new_cell 0 0).

(** [Cell.is_empty] *)
Definition is_empty (c : Cell) : bool := bool_decide (val c = EMPTY_VAL).

(** [cell.val = v] *)
Definition with_val (v : Z) (c : Cell) : Cell :=
  {| cell_i := cell_i c; cell_j := cell_j c; val := v;
     is_clickable := is_clickable c; is_active := is_active c;
     is_valid := is_valid c |}.

(** [cell.is_clickable = b] *)
Definition with_clickable (b : bool) (c : Cell) : Cell :=
  {| cell_i := cell_i c; cell_j := cell_j c; val := val c;
     is_clickable := b; is_active := is_active c;
     is_valid := is_valid c |}.

(** ** The table *)

Abbreviation Table := (list (list Cell)).

(** [self.table[i][j]] *)
Definition cell_at (t : Table) (i j : nat) : Cell := (t !!! i) !!! j.

(** [self.table[i][j].val = v] *)
Definition set_val (i j : nat) (v : Z) (t : Table) : Table :=
  alter (alter (with_val v) j) i t.

(** [self.table[i][j].is_clickable = b] *)
Definition set_clickable (i j : nat) (b : bool) (t : Table) : Table :=
  alter (alter (with_clickable b) j) i t.

(** The shape [generate_table] builds: nine rows of nine cells. *)
Definition table_wf (t : Table) : Prop :=
  length t = 9 ∧ Forall (λ row, length row = 9) t.

(** The first loop of [generate_table]. *)
Definition fresh_table : Table :=
  (λ i, (λ j, new_cell i j) <$> seq 0 9) <$> seq 0 9.

(** ** Loops with an early [return] *)

(** [for x in l: body], where the body either goes on with a new state or
    leaves the function ([None]). *)
Fixpoint for_each {A S : Type} (l : list A) (body : A → S → option S)
    (s : S) : option S :=
  match l with
  | [] => Some s
  | x :: l' =>
      match body x s with
      | Some s' => for_each l' body s'
      | None => None
      end
  end.

(** ** [Game.is_sudoku_valid] *)

(** The three lists of nine sets. *)
Record Seen : Type := mkSeen {
  rows : list (gset Z);
  cols : list (gset Z);
  blocks : list (gset Z)
}.

Definition no_seen : Seen :=
  {| rows := replicate 9 ∅; cols := replicate 9 ∅; blocks := replicate 9 ∅ |}.

(** [i // 3 * 3 + j // 3] *)
Definition block_of (i j : nat) : nat := i / 3 * 3 + j / 3.

(** [rows[i].add(v)] *)
Definition add_at (k : nat) (v : Z) (l : list (gset Z)) : list (gset Z) :=
  alter (λ s, s ∪ {[ v ]}) k l.

(** The body of the inner loop; [None] is [return False]. *)
Definition visit (t : Table) (i j : nat) (s : Seen) : option Seen :=
  let cell := cell_at t i j in
  if is_empty cell then Some s
  else if bool_decide (val cell ∈ rows s !!! i)
          || bool_decide (val cell ∈ cols s !!! j)
          || bool_decide (val cell ∈ blocks s !!! block_of i j)
  then None
  else Some {| rows := add_at i (val cell) (rows s);
               cols := add_at j (val cell) (cols s);
               blocks := add_at (block_of i j) (val cell) (blocks s) |}.

Definition is_sudoku_valid (t : Table) : bool :=
  match for_each (seq 0 9)
          (λ i, for_each (seq 0 9) (λ j, visit t i j)) no_seen with
  | Some _ => true
  | None => false
  end.

(** ** The world the searches run in *)

(** The module [random]: the generator state is threaded explicitly, and
    [random.shuffle] is only known to return a permutation of its
    argument. *)
Class Random (Rng : Type) : Type := {
  shuffle : ∀ A : Type, Rng → list A → list A * Rng;
  shuffle_perm : ∀ (A : Type) (g : Rng) (l : list A), (shuffle A g l).1 ≡ₚ l
}.
Global Arguments shuffle {Rng _ A} g l.

(** The table, the generator, and a history of the assignments made to
    cell values (position and value written), oldest first.  The history
    is a ghost field: the program never reads it. *)
Record World (Rng : Type) : Type := mkWorld {
  table : Table;
  rng : Rng;
  writes : list (nat * nat * Z)
}.
Global Arguments mkWorld {Rng} _ _ _.
Global Arguments table {Rng} _.
Global Arguments rng {Rng} _.
Global Arguments writes {Rng} _.

Definition with_rng {Rng} (g : Rng) (w : World Rng) : World Rng :=
  {| table := table w; rng := g; writes := writes w |}.

Definition with_table {Rng} (t : Table) (w : World Rng) : World Rng :=
  {| table := t; rng := rng w; writes := writes w |}.

(** [self.table[i][j].val = v], recorded in the history. *)
Definition assign {Rng} (i j : nat) (v : Z) (w : World Rng) : World Rng :=
  {| table := set_val i j v (table w); rng := rng w;
     writes := writes w ++ [(i, j, v)] |}.

(** [if j >= 9: i, j = i + 1, 0] *)
Definition next_row (i j : nat) : nat * nat :=
  if decide (9 ≤ j) then (i + 1, 0) else (i, j).

(** ** [Game.is_possible_sudoku_table] *)

Section search.
Context {Rng : Type} `{!Random Rng}.

(** The [for val in vals] loop of [backtracing]; [rec] is the recursive
    call [backtracing(i, j + 1)]. *)
Fixpoint try_vals (rec : World Rng → option (bool * World Rng))
    (i j : nat) (vals : list Z) (w : World Rng) : option (bool * World Rng) :=
  match vals with
  | [] => Some (false, w)
  | v :: vals' =>
      match rec (assign i j v w) with
      | None => None
      | Some (true, w') => Some (true, assign i j EMPTY_VAL w')
      | Some (false, w') => try_vals rec i j vals' (assign i j EMPTY_VAL w')
      end
  end.

(** The inner function [backtracing(i, j)].  [fuel] bounds the depth of
    the recursion; [None] means it was not enough. *)
Fixpoint backtracing (fuel : nat) (i j : nat) (w : World Rng)
    : option (bool * World Rng) :=
  match fuel with
  | 0 => None
  | S fuel' =>
      if negb (is_sudoku_valid (table w)) then Some (false, w)
      else
        let '(i, j) := next_row i j in
        if decide (9 ≤ i) then Some (true, w)
        else if negb (is_empty (cell_at (table w) i j))
        then backtracing fuel' i (j + 1) w
        else
          let '(vals, g) := shuffle (rng w) (seqZ 1 9) in
          try_vals (backtracing fuel' i (j + 1)) i j vals (with_rng g w)
  end.

(** Depth that suffices for every call (see [backtracing_total]). *)
Definition search_fuel : nat := 82.

Definition is_possible_sudoku_table (w : World Rng)
    : option (bool * World Rng) :=
  backtracing search_fuel 0 0 w.

(** ** [Game._get_random_table] *)

(** The [for val in vals] loop of [_get_random_table]: a success leaves
    the value in place. *)
Fixpoint fill_vals (rec : World Rng → option (bool * World Rng))
    (i j : nat) (vals : list Z) (w : World Rng) : option (bool * World Rng) :=
  match vals with
  | [] => Some (false, w)
  | v :: vals' =>
      match rec (assign i j v w) with
      | None => None
      | Some (true, w') => Some (true, w')
      | Some (false, w') => fill_vals rec i j vals' (assign i j EMPTY_VAL w')
      end
  end.

Fixpoint _get_random_table (fuel : nat) (i j : nat) (w : World Rng)
    : option (bool * World Rng) :=
  match fuel with
  | 0 => None
  | S fuel' =>
      if negb (is_sudoku_valid (table w)) then Some (false, w)
      else
        let '(i, j) := next_row i j in
        if decide (9 ≤ i) then Some (true, w)
        else
          let '(vals, g) := shuffle (rng w) (seqZ 1 9) in
          fill_vals (_get_random_table fuel' i (j + 1)) i j vals (with_rng g w)
  end.

(** ** [Game.generate_table] *)

Definition keep_num_of_cells : nat := 30.

(** The body of [for k in range(81)]. *)
Definition mask_step (all_pos : list (nat * nat)) (w : World Rng) (k : nat)
    : World Rng :=
  let '(i, j) := all_pos !!! k in
  if decide (k < 81 - keep_num_of_cells) then assign i j EMPTY_VAL w
  else with_table (set_clickable i j false (table w)) w.

(** The generated board, before masking. *)
Definition generate_full (w : World Rng) : option (bool * World Rng) :=
  _get_random_table search_fuel 0 0 (with_table fresh_table w).

(** The result of [_get_random_table] is discarded. *)
Definition generate_table (w : World Rng) : option (World Rng) :=
  match generate_full w with
  | None => None
  | Some (_, w1) =>
      let '(all_pos, g) := shuffle (rng w1)
                             (i ← seq 0 9; (λ j, (i, j)) <$> seq 0 9) in
      Some (foldl (mask_step all_pos) (with_rng g w1) (seq 0 81))
  end.

End search.

(** A generator to run the searches with: it rotates its argument by a
    counter it then advances. *)
Definition rotate_shuffle (A : Type) (g : nat) (l : list A)
    : list A * nat :=
  (rotate g l, S g).

Lemma rotate_shuffle_perm (A : Type) (g : nat) (l : list A) :
  (rotate_shuffle A g l).1 ≡ₚ l.
Proof.
  unfold rotate_shuffle, rotate. simpl.
  rewrite Permutation_app_comm. by rewrite take_drop.
Qed.

Global Instance rotate_random : Random nat :=
  {| shuffle := rotate_shuffle; shuffle_perm := rotate_shuffle_perm |}.

(** ** The properties the searches are measured against *)

(** Two positions lie in one row, one column or one 3x3 block. *)
Definition same_unit (p q : nat * nat) : Prop :=
  p.1 = q.1 ∨ p.2 = q.2 ∨ block_of p.1 p.2 = block_of q.1 q.2.

Definition in_grid (p : nat * nat) : Prop := p.1 < 9 ∧ p.2 < 9.

Definition value (t : Table) (p : nat * nat) : Z := val (cell_at t p.1 p.2).

Definition clickable (t : Table) (p : nat * nat) : bool :=
  is_clickable (cell_at t p.1 p.2).

(** No two distinct non-empty cells of one unit hold the same value. *)
Definition consistent (t : Table) : Prop :=
  ∀ p q, in_grid p → in_grid q → p ≠ q → same_unit p q →
    value t p ≠ EMPTY_VAL → value t q ≠ EMPTY_VAL → value t p ≠ value t q.

(** The positions in the order of the two nested loops. *)
Definition positions : list (nat * nat) :=
  i ← seq 0 9; (λ j, (i, j)) <$> seq 0 9.

(** Row-major index of a position, and of the position a call
    [backtracing(i, j)] starts at. *)
Definition idx (p : nat * nat) : nat := 9 * p.1 + p.2.

Definition start_idx (i j : nat) : nat := idx (next_row i j).

Definition is_digit (v : Z) : Prop := (1 ≤ v ≤ 9)%Z.

Global Instance is_digit_dec (v : Z) : Decision (is_digit v).
Proof. unfold is_digit. apply _. Defined.

(** [t'] fills the empty cells of [t] from row-major index [n] on with
    digits and agrees with [t] everywhere else. *)
Definition completes (n : nat) (t t' : Table) : Prop :=
  table_wf t' ∧
  ∀ p, in_grid p →
    (value t p ≠ EMPTY_VAL ∨ idx p < n → value t' p = value t p)
    ∧ (value t p = EMPTY_VAL → n ≤ idx p → is_digit (value t' p)).

(** [t'] assigns a digit to every empty cell of [t]. *)
Definition completion (t t' : Table) : Prop := completes 0 t t'.

(** The same, in one clause per cell. *)
Definition completion_of (t t' : Table) : Prop :=
  table_wf t' ∧
  ∀ p, in_grid p →
    if decide (value t p = EMPTY_VAL) then is_digit (value t' p)
    else value t' p = value t p.

(** Every cell of the grid is empty. *)
Definition all_empty (t : Table) : Prop :=
  ∀ p, in_grid p → value t p = EMPTY_VAL.

(** Emptying the cells at the positions [ps]. *)
Definition clear_cells (ps : list (nat * nat)) (t : Table) : Table :=
  foldr (λ p, set_val p.1 p.2 EMPTY_VAL) t ps.

(** A filled table: every cell holds a digit. *)
Definition full (t : Table) : Prop :=
  ∀ p, in_grid p → is_digit (value t p).

(** The cells of a row, of a column and of a block. *)
Definition row_values (t : Table) (i : nat) : list Z :=
  (λ j, value t (i, j)) <$> seq 0 9.

Definition col_values (t : Table) (j : nat) : list Z :=
  (λ i, value t (i, j)) <$> seq 0 9.

Definition block_values (t : Table) (b : nat) : list Z :=
  (λ k, value t (b / 3 * 3 + k / 3, b mod 3 * 3 + k mod 3)) <$> seq 0 9.

(** A complete solution, used to show that the empty board has one. *)
Definition solved_values : list (list Z) :=
  [ [1; 2; 3; 4; 5; 6; 7; 8; 9];
    [4; 5; 6; 7; 8; 9; 1; 2; 3];
    [7; 8; 9; 1; 2; 3; 4; 5; 6];
    [2; 3; 4; 5; 6; 7; 8; 9; 1];
    [5; 6; 7; 8; 9; 1; 2; 3; 4];
    [8; 9; 1; 2; 3; 4; 5; 6; 7];
    [3; 4; 5; 6; 7; 8; 9; 1; 2];
    [6; 7; 8; 9; 1; 2; 3; 4; 5];
    [9; 1; 2; 3; 4; 5; 6; 7; 8] ]%Z.

(** The table whose cell values are those of [vs] (missing ones empty). *)
Definition table_of (vs : list (list Z)) : Table :=
  (λ i, (λ j, with_val (default EMPTY_VAL (vs !! i ≫= (.!! j)))
                (new_cell i j)) <$> seq 0 9) <$> seq 0 9.

Definition solved_table : Table := table_of solved_values.

(** A puzzle: [solved_values] with some cells emptied. *)
Definition sample_values : list (list Z) :=
  [ [1; -1; 3; -1; 5; 6; -1; 8; 9];
    [4; 5; -1; 7; 8; -1; 1; 2; -1];
    [-1; 8; 9; 1; -1; 3; 4; -1; 6];
    [2; 3; 4; -1; -1; 7; 8; 9; 1];
    [5; -1; 7; 8; 9; 1; -1; 3; 4];
    [8; 9; -1; 2; 3; -1; 5; 6; -1];
    [-1; 4; 5; 6; -1; 8; 9; -1; 2];
    [6; 7; 8; -1; 1; 2; 3; 4; 5];
    [9; -1; 2; 3; 4; -1; 6; 7; -1] ]%Z.

Definition sample_table : Table := table_of sample_values.

(** A table with the values 0 and 10 in it and no repeated value in any
    unit. *)
Definition odd_values : list (list Z) :=
  [ [0; 10; 3; -1; -1; -1; -1; -1; -1];
    [-1; -1; -1; 0; 10; -1; -1; -1; -1];
    [-1; -1; -1; -1; -1; -1; 10; 0; -5] ]%Z.

Definition odd_table : Table := table_of odd_values.

(** Worlds to run the searches in, with the rotating generator. *)
Definition empty_world : World nat := mkWorld fresh_table 0 [].

Definition sample_world : World nat := mkWorld sample_table 3 [].

(** The world the generation search leaves when started in [empty_world]. *)
Definition generated_world : World nat :=
  match generate_full empty_world with
  | Some (_, w') => w'
  | None => empty_world
  end.

(** ** Auxiliary notions for the validity scan *)

Definition visit_pos (t : Table) (p : nat * nat) : Seen → option Seen :=
  visit t p.1 p.2.

Definition seen_wf (s : Seen) : Prop :=
  length (rows s) = 9 ∧ length (cols s) = 9 ∧ length (blocks s) = 9.

(** [v] is already recorded for the row, column or block of [p]. *)
Definition in_seen (s : Seen) (p : nat * nat) (v : Z) : Prop :=
  v ∈ rows s !!! p.1 ∨ v ∈ cols s !!! p.2
  ∨ v ∈ blocks s !!! block_of p.1 p.2.

(** A later cell [q] repeats the value of the non-empty cell [p]. *)
Definition clash (t : Table) (p q : nat * nat) : Prop :=
  value t p ≠ EMPTY_VAL ∧ value t q = value t p ∧ same_unit q p.

Fixpoint pairwise_ok (t : Table) (l : list (nat * nat)) : Prop :=
  match l with
  | [] => True
  | p :: l' => (∀ q, q ∈ l' → ¬ clash t p q) ∧ pairwise_ok t l'
  end.

(** ** Auxiliary notions for the searches *)

(** A completion from index [n] on exists. *)
Definition solvable_from (n : nat) (t : Table) : Prop :=
  ∃ t', completes n t t' ∧ consistent t'.

(** Every recorded assignment targets a cell of the grid that is empty in
    [t]. *)
Definition writes_only_empty (t : Table) (new : list (nat * nat * Z)) : Prop :=
  ∀ x, x ∈ new → in_grid (x.1.1, x.1.2) ∧ value t (x.1.1, x.1.2) = EMPTY_VAL.

(** What a call of the solvability search that starts at index [n] in
    world [w] and returns [r] in world [w'] guarantees. *)
Definition check_post {Rng} (n : nat) (w : World Rng) (r : bool)
    (w' : World Rng) : Prop :=
  table w' = table w
  ∧ (∃ new, writes w' = writes w ++ new ∧ writes_only_empty (table w) new)
  ∧ (r = true ↔ solvable_from n (table w)).

(** Every cell from index [n] on is empty. *)
Definition empty_from (n : nat) (t : Table) : Prop :=
  ∀ p, in_grid p → n ≤ idx p → value t p = EMPTY_VAL.

(** What a call of the generation search guarantees. *)
Definition fill_post {Rng} (n : nat) (w : World Rng) (r : bool)
    (w' : World Rng) : Prop :=
  if r then completes n (table w) (table w')
            ∧ is_sudoku_valid (table w') = true
  else table w' = table w ∧ ¬ solvable_from n (table w).

(** * The interaction layer *)

(** ** [Game._is_in_even_block] *)

(** [(i // 3 + j // 3) % 2 == 0] *)
Definition _is_in_even_block (i j : nat) : bool :=
  bool_decide ((i / 3 + j / 3) `mod` 2 = 0).

(** ** Drawing *)

(** [class COLORS] *)
Abbreviation Color := (Z * Z * Z)%type.

Definition WHITE : Color := (255, 255, 255)%Z.
Definition BLACK : Color := (0, 0, 0)%Z.
Definition LIGHT_GRAY : Color := (220, 220, 220)%Z.
Definition GRAY : Color := (169, 169, 169)%Z.
Definition RED : Color := (254, 57, 57)%Z.

(** [Cell.text]: [str(self.val)] *)
Definition text (c : Cell) : string := pretty (val c).

(** What is drawn on the display surface [self.bg].  The rectangle of a
    cell and the place of its text are computed from the fields [i] and
    [j] of the cell; a command records these two fields, the pixel
    arithmetic is left to pygame. *)
Inductive DrawCmd : Type :=
  | fill (color : Color)
  | draw_rect (color : Color) (i j : nat)
  | blit_text (txt : string) (color : Color) (i j : nat).

(** [Game._draw_text] *)
Definition _draw_text (cell : Cell) (bg : list DrawCmd) : list DrawCmd :=
  let color :=
    if is_clickable cell then (if is_valid cell then BLACK else RED)
    else GRAY in
  bg ++ [blit_text (text cell) color (cell_i cell) (cell_j cell)].

(** The body of the inner loop of [draw_all_cells]. *)
Definition draw_cell (t : Table) (i j : nat) (bg : list DrawCmd)
    : list DrawCmd :=
  let cell := cell_at t i j in
  let color := if _is_in_even_block i j then WHITE else LIGHT_GRAY in
  let bg := bg ++ [draw_rect color (cell_i cell) (cell_j cell)] in
  if negb (is_empty cell) then _draw_text cell bg else bg.

(** [Game.draw_all_cells] *)
Definition draw_all_cells (t : Table) (bg : list DrawCmd) : list DrawCmd :=
  foldl (λ bg i, foldl (λ bg j, draw_cell t i j bg) bg (seq 0 9))
    bg (seq 0 9).

(** ** Events *)

(** The key codes [handle_user_input] tells apart; [K_OTHER] is any other
    key. *)
Inductive Key : Type :=
  | K_1 | K_2 | K_3 | K_4 | K_5 | K_6 | K_7 | K_8 | K_9
  | K_KP1 | K_KP2 | K_KP3 | K_KP4 | K_KP5 | K_KP6 | K_KP7 | K_KP8 | K_KP9
  | K_OTHER.

(** The [match event.key] statement: the value a key assigns, if any. *)
Definition key_val (key : Key) : option Z :=
  match key with
  | K_1 | K_KP1 => Some 1%Z
  | K_2 | K_KP2 => Some 2%Z
  | K_3 | K_KP3 => Some 3%Z
  | K_4 | K_KP4 => Some 4%Z
  | K_5 | K_KP5 => Some 5%Z
  | K_6 | K_KP6 => Some 6%Z
  | K_7 | K_KP7 => Some 7%Z
  | K_8 | K_KP8 => Some 8%Z
  | K_9 | K_KP9 => Some 9%Z
  | K_OTHER => None
  end.

(** The events of [pygame.event.get()], by [event.type]. *)
Inductive Event (Pos : Type) : Type :=
  | QUIT
  | KEYDOWN (key : Key)
  | MOUSEBUTTONDOWN (button : Z) (pos : Pos)
  | OTHER_EVENT.
Global Arguments QUIT {Pos}.
Global Arguments KEYDOWN {Pos} _.
Global Arguments MOUSEBUTTONDOWN {Pos} _ _.
Global Arguments OTHER_EVENT {Pos}.

(** [pygame.Rect(...).collidepoint]: whether the rectangle of the cell with
    fields [i] and [j] contains a mouse position. *)
Class Pygame (Pos : Type) : Type := {
  Rect_collidepoint : nat → nat → Pos → bool
}.

(** How a call ends: it returns, or [sys.exit()] ends the program. *)
Inductive Outcome (A : Type) : Type :=
  | Returned (a : A)
  | Exited (a : A).
Global Arguments Returned {A} _.
Global Arguments Exited {A} _.

Definition outcome_state {A} (o : Outcome A) : A :=
  match o with Returned a | Exited a => a end.

(** ** The game *)

(** [class Game]: the world of the searches, the active cell, the display
    surface and what was printed.  [active_cell] is a reference to a cell
    object of the table; the cell objects never move, so the reference is
    the position of the cell in the table, and an assignment through it
    is an assignment to that cell of the table. *)
Record Game (Rng : Type) : Type := mkGame {
  world : World Rng;
  active_cell : option (nat * nat);
  bg : list DrawCmd;
  stdout : list string
}.
Global Arguments mkGame {Rng} _ _ _ _.
Global Arguments world {Rng} _.
Global Arguments active_cell {Rng} _.
Global Arguments bg {Rng} _.
Global Arguments stdout {Rng} _.

(** [cell.is_active = b] *)
Definition with_active (b : bool) (c : Cell) : Cell :=
  {| cell_i := cell_i c; cell_j := cell_j c; val := val c;
     is_clickable := is_clickable c; is_active := b;
     is_valid := is_valid c |}.

(** [cell.is_valid = b] *)
Definition with_valid (b : bool) (c : Cell) : Cell :=
  {| cell_i := cell_i c; cell_j := cell_j c; val := val c;
     is_clickable := is_clickable c; is_active := is_active c;
     is_valid := b |}.

(** An assignment to a flag of [self.table[i][j]]. *)
Definition update_cell {Rng} (f : Cell → Cell) (i j : nat) (w : World Rng)
    : World Rng :=
  with_table (alter (alter f j) i (table w)) w.

Definition with_world {Rng} (w : World Rng) (g : Game Rng) : Game Rng :=
  {| world := w; active_cell := active_cell g; bg := bg g;
     stdout := stdout g |}.

Definition with_bg {Rng} (b : list DrawCmd) (g : Game Rng) : Game Rng :=
  {| world := world g; active_cell := active_cell g; bg := b;
     stdout := stdout g |}.

Section interaction.
Context {Rng : Type} `{!Random Rng} {Pos : Type} `{!Pygame Pos}.

(** [Cell.collidepoint] *)
Definition collidepoint (c : Cell) (mouse_pos : Pos) : bool :=
  Rect_collidepoint (cell_i c) (cell_j c) mouse_pos.

(** The line [print] writes for a click on [cell]. *)
Definition click_message (c : Cell) : string :=
  ">>> Click on (i, j) = (" +:+ pretty (cell_i c) +:+ ", "
  +:+ pretty (cell_j c) +:+ ")".

(** The [KEYDOWN] branch of [handle_user_input]. *)
Definition key_down (key : Key) (g : Game Rng) : option (Game Rng) :=
  match active_cell g with
  | None => Some g
  | Some (i, j) =>
      if negb (is_clickable (cell_at (table (world g)) i j)) then Some g
      else
        let w1 :=
          match key_val key with
          | Some v => assign i j v (world g)
          | None => world g
          end in
        match is_possible_sudoku_table w1 with
        | None => None
        | Some (r, w2) => Some (with_world (update_cell (with_valid r) i j w2) g)
        end
  end.

(** The statements under [if cell.collidepoint(event.pos)], for the cell
    at [(i, j)], up to the [break]. *)
Definition click_cell (i j : nat) (g : Game Rng) : option (Game Rng) :=
  let released :=
    match active_cell g with
    | Some (ai, aj) =>
        let w1 := update_cell (with_active false) ai aj (world g) in
        match is_possible_sudoku_table w1 with
        | None => None
        | Some (true, w2) => Some w2
        | Some (false, w2) =>
            Some (update_cell (with_valid true) ai aj
                    (assign ai aj EMPTY_VAL w2))
        end
    | None => Some (world g)
    end in
  match released with
  | None => None
  | Some w =>
      let w' := update_cell (with_active true) i j w in
      Some {| world := w'; active_cell := Some (i, j); bg := bg g;
              stdout := stdout g
                        ++ [click_message (cell_at (table w') i j)] |}
  end.

(** [for cell in cells], left by [break] at the first cell that contains
    the mouse position. *)
Fixpoint click_row (mouse_pos : Pos) (i : nat) (js : list nat)
    (g : Game Rng) : option (Game Rng) :=
  match js with
  | [] => Some g
  | j :: js' =>
      if collidepoint (cell_at (table (world g)) i j) mouse_pos
      then click_cell i j g
      else click_row mouse_pos i js' g
  end.

(** [for cells in self.table]: the [break] leaves the inner loop only. *)
Fixpoint click_rows (mouse_pos : Pos) (rws : list nat) (g : Game Rng)
    : option (Game Rng) :=
  match rws with
  | [] => Some g
  | i :: rws' =>
      match click_row mouse_pos i
              (seq 0 (length (table (world g) !!! i))) g with
      | None => None
      | Some g' => click_rows mouse_pos rws' g'
      end
  end.

(** The [MOUSEBUTTONDOWN] branch, for the left button. *)
Definition mouse_down (mouse_pos : Pos) (g : Game Rng) : option (Game Rng) :=
  click_rows mouse_pos (seq 0 (length (table (world g)))) g.

(** [Game.handle_user_input], on the events [pygame.event.get()]
    returned.  [None]: a search ran out of depth (it never does, see
    [handle_user_input_returns]). *)
Fixpoint handle_user_input (events : list (Event Pos)) (g : Game Rng)
    : option (Outcome (Game Rng)) :=
  match events with
  | [] => Some (Returned g)
  | QUIT :: _ => Some (Exited g)
  | KEYDOWN key :: events' =>
      match key_down key g with
      | None => None
      | Some g' => handle_user_input events' g'
      end
  | MOUSEBUTTONDOWN button mouse_pos :: events' =>
      if decide (button = 1%Z) then
        match mouse_down mouse_pos g with
        | None => None
        | Some g' => handle_user_input events' g'
        end
      else handle_user_input events' g
  | OTHER_EVENT :: events' => handle_user_input events' g
  end.

(** [Game.__init__]: the table [generate_table] builds, no active cell. *)
Definition Game_init (w : World Rng) : option (Game Rng) :=
  match generate_table w with
  | None => None
  | Some w' => Some (mkGame w' None [] [])
  end.

(** One round of the loop of [Game.start]: clear the surface, handle the
    events, draw the cells.  The frame clock and the [await] have no
    effect on the game. *)
Definition frame (events : list (Event Pos)) (g : Game Rng)
    : option (Outcome (Game Rng)) :=
  match handle_user_input events (with_bg [fill BLACK] g) with
  | Some (Returned g') =>
      Some (Returned (with_bg (draw_all_cells (table (world g')) (bg g')) g'))
  | other => other
  end.

(** [Game.start]: the loop never ends by itself; [start batches] runs one
    round for each list of events in [batches]. *)
Fixpoint start (batches : list (list (Event Pos))) (g : Game Rng)
    : option (Outcome (Game Rng)) :=
  match batches with
  | [] => Some (Returned g)
  | events :: batches' =>
      match frame events g with
      | Some (Returned g') => start batches' g'
      | other => other
      end
  end.

(** [main] *)
Definition main (w : World Rng) (batches : list (list (Event Pos)))
    : option (Outcome (Game Rng)) :=
  match Game_init w with
  | None => None
  | Some g => start batches g
  end.

End interaction.

(** ** What the interaction layer keeps *)

Definition active_flag (t : Table) (p : nat * nat) : bool :=
  is_active (cell_at t p.1 p.2).

Definition valid_flag (t : Table) (p : nat * nat) : bool :=
  is_valid (cell_at t p.1 p.2).

(** The empty cells can be given digits so that no unit repeats a value. *)
Definition has_completion (t : Table) : Prop :=
  ∃ t', completion_of t t' ∧ consistent t'.

(** The state of a game whose puzzle is [t0]. *)
Record game_inv {Rng} (t0 : Table) (g : Game Rng) : Prop := {
  inv_wf : table_wf (table (world g));
  inv_fields : ∀ p, in_grid p →
    cell_i (cell_at (table (world g)) p.1 p.2) = p.1
    ∧ cell_j (cell_at (table (world g)) p.1 p.2) = p.2;
  inv_values : ∀ p, in_grid p →
    value (table (world g)) p = EMPTY_VAL
    ∨ is_digit (value (table (world g)) p);
  inv_clickable : ∀ p, in_grid p →
    clickable (table (world g)) p = clickable t0 p;
  inv_givens : ∀ p, in_grid p → clickable t0 p = false →
    value (table (world g)) p = value t0 p;
  inv_active_grid : ∀ a, active_cell g = Some a → in_grid a;
  inv_active : ∀ p, in_grid p →
    active_flag (table (world g)) p = true ↔ active_cell g = Some p;
  inv_valid : ∀ p, in_grid p → valid_flag (table (world g)) p = false →
    active_cell g = Some p ∧ ¬ has_completion (table (world g));
  inv_one_move : has_completion (table (world g))
    ∨ ∃ a, active_cell g = Some a
        ∧ clickable (table (world g)) a = true
        ∧ valid_flag (table (world g)) a = false
        ∧ has_completion (set_val a.1 a.2 EMPTY_VAL (table (world g)))
}.

(** ** Games to run *)

(** A pygame whose rectangles are the squares of [CELL_WIDTH] = 64 pixels:
    the cell with fields [i] and [j] lies at [x = 64 i], [y = 64 j]. *)
Global Instance grid_pygame : Pygame (nat * nat) :=
  {| Rect_collidepoint i j mouse_pos :=
       bool_decide (mouse_pos.1 / 64 = i ∧ mouse_pos.2 / 64 = j) |}.

(** The game [Game.__init__] builds in [empty_world]. *)
Definition init_game : Game nat :=
  default (mkGame empty_world None [] []) (Game_init empty_world).

(** The game after one round with a click in the top left corner. *)
Definition clicked_game : Game nat :=
  match main empty_world [[MOUSEBUTTONDOWN 1 (0, 0)]] with
  | Some out => outcome_state out
  | None => init_game
  end.

(** [sample_table] with a second 1 in its first row. *)
Definition clash_world : World nat :=
  mkWorld (set_val 0 1 1 sample_table) 0 [].

(** * Proofs *)

(** ** Loops *)

Lemma for_each_app {A S} (l1 l2 : list A) (body : A → S → option S) s :
  for_each (l1 ++ l2) body s = for_each l1 body s ≫= for_each l2 body.
Proof.
  revert s. induction l1 as [|x l1 IH]; intros s; simpl; [done|].
  destruct (body x s); simpl; auto.
Qed.

Lemma for_each_fmap {A B S} (f : A → B) (l : list A)
    (body : B → S → option S) s :
  for_each (f <$> l) body s = for_each l (λ x, body (f x)) s.
Proof.
  revert s. induction l as [|x l IH]; intros s; simpl; [done|].
  destruct (body (f x) s); auto.
Qed.

Lemma for_each_nested {A B S} (l : list A) (inner : A → list B)
    (body : A → B → S → option S) s :
  for_each l (λ x, for_each (inner x) (body x)) s
  = for_each (x ← l; (λ y, (x, y)) <$> inner x) (λ p, body p.1 p.2) s.
Proof.
  revert s. induction l as [|x l IH]; intros s; [done|].
  change (mbind ?f (x :: l)) with (f x ++ mbind f l).
  rewrite for_each_app, for_each_fmap. simpl.
  destruct (for_each (inner x) (body x) s); simpl; auto.
Qed.

(** ** The positions of the grid *)

Lemma elem_of_positions p : p ∈ positions ↔ in_grid p.
Proof.
  unfold positions, in_grid. rewrite list_elem_of_bind. split.
  - intros (i & Hp & Hi). apply list_elem_of_fmap in Hp as (j & -> & Hj).
    apply elem_of_seq in Hi, Hj. simpl. lia.
  - intros [Hi Hj]. exists p.1. split.
    + apply list_elem_of_fmap. exists p.2. split; [by destruct p|].
      apply elem_of_seq. lia.
    + apply elem_of_seq. lia.
Qed.

Lemma positions_in_grid : Forall in_grid positions.
Proof. apply Forall_forall. intros p. apply elem_of_positions. Qed.

Lemma NoDup_positions : NoDup positions.
Proof. apply (bool_decide_unpack (NoDup positions)). by vm_compute. Qed.

Lemma length_positions : length positions = 81.
Proof. reflexivity. Qed.

Lemma block_of_lt i j : i < 9 → j < 9 → block_of i j < 9.
Proof.
  intros Hi Hj. unfold block_of.
  assert (i / 3 < 3) by (apply Nat.Div0.div_lt_upper_bound; lia).
  assert (j / 3 < 3) by (apply Nat.Div0.div_lt_upper_bound; lia).
  lia.
Qed.

Lemma same_unit_sym p q : same_unit p q → same_unit q p.
Proof. unfold same_unit. intuition congruence. Qed.

(** ** The validity scan decides [consistent] *)

Lemma scan_flat t s :
  for_each (seq 0 9) (λ i, for_each (seq 0 9) (λ j, visit t i j)) s
  = for_each positions (visit_pos t) s.
Proof. apply (for_each_nested (seq 0 9) (λ _, seq 0 9) (visit t)). Qed.

Lemma elem_of_add_at (l : list (gset Z)) k k' v v' :
  k < length l →
  v' ∈ add_at k v l !!! k' ↔ v' ∈ l !!! k' ∨ (k' = k ∧ v' = v).
Proof.
  intros Hk. unfold add_at. rewrite list_lookup_total_alter.
  case_decide as Hd.
  - destruct Hd as [-> _]. rewrite elem_of_union, elem_of_singleton. tauto.
  - split; [by left|]. intros [?|[-> _]]; [done|]. destruct Hd; done.
Qed.

Lemma visit_empty t p s :
  value t p = EMPTY_VAL → visit_pos t p s = Some s.
Proof.
  intros He. unfold visit_pos, visit, is_empty.
  rewrite bool_decide_eq_true_2; done.
Qed.

Lemma visit_seen t p s :
  value t p ≠ EMPTY_VAL → in_seen s p (value t p) → visit_pos t p s = None.
Proof.
  intros He Hin. unfold visit_pos, visit, is_empty.
  rewrite bool_decide_eq_false_2 by done.
  destruct Hin as [H|[H|H]]; unfold value in H.
  - rewrite (bool_decide_eq_true_2 _ H). done.
  - rewrite (bool_decide_eq_true_2 _ H), orb_true_r. done.
  - rewrite (bool_decide_eq_true_2 _ H), orb_true_r. done.
Qed.

Lemma visit_fresh t p s :
  in_grid p → seen_wf s →
  value t p ≠ EMPTY_VAL → ¬ in_seen s p (value t p) →
  ∃ s', visit_pos t p s = Some s' ∧ seen_wf s' ∧
    ∀ q v, in_grid q →
      in_seen s' q v ↔ in_seen s q v ∨ (v = value t p ∧ same_unit q p).
Proof.
  intros [Hi Hj] (Hr & Hc & Hb) He Hin.
  unfold visit_pos, visit, is_empty.
  rewrite bool_decide_eq_false_2 by done.
  unfold in_seen, value in Hin.
  rewrite !bool_decide_eq_false_2 by tauto. simpl.
  eexists; split; [done|]. split.
  - unfold seen_wf, add_at; simpl. rewrite !length_alter. done.
  - intros q v [Hqi Hqj]. unfold in_seen, same_unit, value; simpl.
    pose proof (block_of_lt _ _ Hi Hj).
    rewrite !elem_of_add_at by lia. tauto.
Qed.

Lemma scan_spec t l s :
  Forall in_grid l → seen_wf s →
  is_Some (for_each l (visit_pos t) s) ↔
    (∀ p, p ∈ l → value t p ≠ EMPTY_VAL → ¬ in_seen s p (value t p))
    ∧ pairwise_ok t l.
Proof.
  intros Hl. revert s. induction Hl as [|p l Hp Hl IH]; intros s Hs.
  { simpl. split; [|eauto]. intros _. split; [|done].
    intros p Hp. by apply elem_of_nil in Hp. }
  simpl. destruct (decide (value t p = EMPTY_VAL)) as [He|He].
  { rewrite (visit_empty t p s He), (IH s Hs). split.
    - intros [H1 H2]. split; [|split; [|done]].
      + intros q [->|Hq]%elem_of_cons; [done|]. by apply H1.
      + intros q _ [Hc _]. done.
    - intros [H1 [_ H2]]. split; [|done].
      intros q Hq. apply H1. by right. }
  destruct (decide (in_seen s p (value t p))) as [Hin|Hin].
  { rewrite (visit_seen t p s He Hin). split.
    - intros [? ?]; done.
    - intros [H1 _]. exfalso. apply (H1 p); [by left|done|done]. }
  destruct (visit_fresh t p s Hp Hs He Hin) as (s' & -> & Hs' & Hseen).
  rewrite (IH s' Hs'). split.
  - intros [H1 H2]. split; [|split; [|done]].
    + intros q [->|Hq]%elem_of_cons Hqe Hqs; [done|].
      apply (H1 q Hq Hqe). apply Hseen; [|by left].
      by eapply Forall_forall in Hl.
    + intros q Hq (_ & Hv & Hu).
      assert (value t q ≠ EMPTY_VAL) as Hqe by congruence.
      apply (H1 q Hq Hqe). apply Hseen; [|by right].
      by eapply Forall_forall in Hl.
  - intros [H1 [H2 H3]]. split; [|done].
    intros q Hq Hqe Hqs.
    apply Hseen in Hqs; [|by eapply Forall_forall in Hl].
    destruct Hqs as [Hqs|[Hv Hu]].
    + apply (H1 q); [by right|done|done].
    + apply (H2 q Hq). done.
Qed.

Lemma clash_sym t p q : clash t p q → clash t q p.
Proof.
  intros (He & Hv & Hu). split; [congruence|].
  split; [done|]. by apply same_unit_sym.
Qed.

Lemma pairwise_ok_spec t l :
  NoDup l →
  pairwise_ok t l ↔ ∀ p q, p ∈ l → q ∈ l → p ≠ q → ¬ clash t p q.
Proof.
  induction 1 as [|x l Hx Hl IH]; simpl.
  { split; [|done]. intros _ p q Hp. by apply elem_of_nil in Hp. }
  rewrite IH. split.
  - intros [H1 H2] p q [->|Hp]%elem_of_cons [->|Hq]%elem_of_cons Hne;
      [done|by apply H1| |by apply H2].
    intros Hc. by apply (H1 p Hp), clash_sym.
  - intros H. split.
    + intros q Hq. apply H; [by left|by right|]. by intros ->.
    + intros p q Hp Hq. apply H; by right.
Qed.

Lemma in_seen_no_seen p v : in_grid p → ¬ in_seen no_seen p v.
Proof.
  intros [Hi Hj]. pose proof (block_of_lt _ _ Hi Hj) as Hb.
  unfold in_seen, no_seen; cbn [rows cols blocks].
  rewrite !lookup_total_replicate_2 by done.
  rewrite elem_of_empty. tauto.
Qed.

Lemma is_sudoku_valid_consistent t : is_sudoku_valid t = true ↔ consistent t.
Proof.
  unfold is_sudoku_valid. rewrite scan_flat.
  assert (is_Some (for_each positions (visit_pos t) no_seen) ↔ consistent t)
    as <-.
  { rewrite scan_spec; [|apply positions_in_grid|done].
    rewrite (pairwise_ok_spec t _ NoDup_positions). split.
    - intros [_ H] p q Hp Hq Hne Hu Hpe Hqe Hv.
      apply (H p q); [by apply elem_of_positions..|done|].
      split; [done|]. split; [done|]. by apply same_unit_sym.
    - intros H. split.
      + intros p Hp _. by apply in_seen_no_seen, elem_of_positions.
      + intros p q Hp%elem_of_positions Hq%elem_of_positions Hne
          (Hpe & Hv & Hu).
        apply (H p q); [done..|by apply same_unit_sym|done|congruence|done]. }
  destruct (for_each _ _ _); split; intros H; done.
Qed.

(** ** Reading and writing cells *)

Lemma table_wf_row t i : table_wf t → i < 9 → length (t !!! i) = 9.
Proof.
  intros [Hlen Hrows] Hi.
  apply (Forall_lookup_1 _ _ i (t !!! i)) in Hrows; [done|].
  apply list_lookup_lookup_total_lt. lia.
Qed.

Lemma alter_cell_wf (f : Cell → Cell) i j t :
  table_wf t → table_wf (alter (alter f j) i t).
Proof.
  intros [Hlen Hrows]. split; [by rewrite length_alter|].
  apply Forall_alter; [done|]. intros row _ Hrow. by rewrite length_alter.
Qed.

Lemma cell_at_alter (f : Cell → Cell) i j i' j' t :
  table_wf t → i < 9 → j < 9 →
  cell_at (alter (alter f j) i t) i' j'
  = if decide (i' = i ∧ j' = j) then f (cell_at t i j) else cell_at t i' j'.
Proof.
  intros Hwf Hi Hj. unfold cell_at.
  pose proof (table_wf_row t i Hwf Hi) as Hrow. destruct Hwf as [Hlen _].
  rewrite list_lookup_total_alter.
  destruct (decide (i = i' ∧ i < length t)) as [[-> _]|Hne].
  - rewrite list_lookup_total_alter.
    destruct (decide (j = j' ∧ j < length (t !!! i'))) as [[-> _]|Hne].
    + rewrite decide_True; done.
    + rewrite decide_False; [done|]. intros [_ ->]. apply Hne. split; [done|lia].
  - rewrite decide_False; [done|]. intros [-> _]. apply Hne. split; [done|lia].
Qed.

Lemma set_val_wf i j v t : table_wf t → table_wf (set_val i j v t).
Proof. apply alter_cell_wf. Qed.

Lemma set_clickable_wf i j b t : table_wf t → table_wf (set_clickable i j b t).
Proof. apply alter_cell_wf. Qed.

Lemma value_set_val i j v t q :
  table_wf t → in_grid (i, j) →
  value (set_val i j v t) q = if decide (q = (i, j)) then v else value t q.
Proof.
  intros Hwf [Hi Hj]. unfold value, set_val. simpl in Hi, Hj.
  rewrite cell_at_alter by done. destruct q as [i' j']; simpl.
  destruct (decide (i' = i ∧ j' = j)) as [[-> ->]|Hne].
  - rewrite decide_True; done.
  - rewrite decide_False; [done|]. intros [= -> ->]. by apply Hne.
Qed.

Lemma value_set_val_eq i j v t :
  table_wf t → in_grid (i, j) → value (set_val i j v t) (i, j) = v.
Proof. intros. rewrite value_set_val by done. by rewrite decide_True. Qed.

Lemma value_set_val_ne i j v t q :
  table_wf t → in_grid (i, j) → q ≠ (i, j) →
  value (set_val i j v t) q = value t q.
Proof. intros. rewrite value_set_val by done. by rewrite decide_False. Qed.

Lemma clickable_set_val i j v t q :
  clickable (set_val i j v t) q = clickable t q.
Proof.
  unfold clickable, set_val, cell_at. rewrite list_lookup_total_alter.
  case_decide as H1; [|done]. destruct H1 as [-> _].
  rewrite list_lookup_total_alter. case_decide as H2; [|done].
  by destruct H2 as [-> _].
Qed.

Lemma value_set_clickable i j b t q :
  table_wf t → in_grid (i, j) →
  value (set_clickable i j b t) q = value t q.
Proof.
  intros Hwf [Hi Hj]. unfold value, set_clickable. simpl in Hi, Hj.
  rewrite cell_at_alter by done. destruct q as [i' j']; simpl.
  destruct (decide (i' = i ∧ j' = j)) as [[-> ->]|Hne]; done.
Qed.

Lemma clickable_set_clickable i j b t q :
  table_wf t → in_grid (i, j) →
  clickable (set_clickable i j b t) q
  = if decide (q = (i, j)) then b else clickable t q.
Proof.
  intros Hwf [Hi Hj]. unfold clickable, set_clickable. simpl in Hi, Hj.
  rewrite cell_at_alter by done. destruct q as [i' j']; simpl.
  destruct (decide (i' = i ∧ j' = j)) as [[-> ->]|Hne].
  - rewrite decide_True; done.
  - rewrite decide_False; [done|]. intros [= -> ->]. by apply Hne.
Qed.

Lemma alter_fixed {A} (f : A → A) (l : list A) i :
  (∀ x, l !! i = Some x → f x = x) → alter f i l = l.
Proof.
  intros Hf. apply list_eq. intros k. rewrite list_lookup_alter.
  case_decide as Hk; [|done]. subst k.
  destruct (l !! i) as [x|] eqn:Hx; [|done]. simpl. by rewrite Hf.
Qed.

(** Writing a value into an empty cell and emptying the cell again gives
    back the very same table. *)
Lemma set_val_undo i j v t :
  value t (i, j) = EMPTY_VAL →
  set_val i j EMPTY_VAL (set_val i j v t) = t.
Proof.
  intros He. unfold set_val. rewrite list_alter_alter_eq.
  apply alter_fixed. intros row Hrow. simpl.
  rewrite list_alter_alter_eq. apply alter_fixed. intros c Hc. simpl.
  unfold value, cell_at in He. simpl in He.
  rewrite (list_lookup_total_correct _ _ _ Hrow) in He.
  rewrite (list_lookup_total_correct _ _ _ Hc) in He.
  destruct c; simpl in *. unfold with_val; simpl. by rewrite He.
Qed.

Lemma fresh_table_wf : table_wf fresh_table.
Proof. split; [done|]. unfold fresh_table. by repeat constructor. Qed.

Lemma value_fresh_table p : in_grid p → value fresh_table p = EMPTY_VAL.
Proof.
  intros Hp%elem_of_positions. revert p Hp. apply Forall_forall.
  apply (bool_decide_unpack (Forall _ positions)). by vm_compute.
Qed.

(** ** Emptying cells keeps a table consistent *)

Lemma consistent_mono t t' :
  (∀ p, in_grid p → value t p = value t' p ∨ value t p = EMPTY_VAL) →
  consistent t' → consistent t.
Proof.
  intros Hsub Hc p q Hp Hq Hne Hu Hpe Hqe.
  destruct (Hsub p Hp) as [Hp'|]; [|done].
  destruct (Hsub q Hq) as [Hq'|]; [|done].
  rewrite Hp', Hq'. apply Hc; try done; congruence.
Qed.

Lemma completes_consistent n t t' :
  completes n t t' → consistent t' → consistent t.
Proof.
  intros [_ Hc]. apply consistent_mono. intros p Hp.
  destruct (decide (value t p = EMPTY_VAL)) as [He|He]; [by right|].
  left. symmetry. apply Hc; [done|by left].
Qed.

(** ** Row-major indices *)

Lemma idx_inj p q : in_grid p → in_grid q → idx p = idx q → p = q.
Proof.
  destruct p as [a b], q as [c d]. unfold in_grid, idx; simpl.
  intros [? ?] [? ?] ?. f_equal; lia.
Qed.

Lemma idx_lt p : in_grid p → idx p < 81.
Proof. destruct p. unfold in_grid, idx; simpl. lia. Qed.

Lemma next_row_spec i j i' j' :
  next_row i j = (i', j') →
  j' < 9 ∧ start_idx i j = idx (i', j')
  ∧ start_idx i' (j' + 1) = S (idx (i', j')).
Proof.
  unfold start_idx. intros Hn. rewrite Hn. revert Hn.
  unfold next_row, idx.
  destruct (decide (9 ≤ j)); intros [= <- <-];
    case_decide; simpl; lia.
Qed.

(** ** Completions *)

Lemma completes_refl n t : table_wf t → 81 ≤ n → completes n t t.
Proof.
  intros Hwf Hn. split; [done|]. intros p Hp. split; [done|].
  intros _ Hle. pose proof (idx_lt p Hp). lia.
Qed.

Lemma completes_skip n t t' p0 :
  in_grid p0 → idx p0 = n → value t p0 ≠ EMPTY_VAL →
  completes (S n) t t' ↔ completes n t t'.
Proof.
  intros Hp0 Hn He. split; intros [Hwf Hc]; (split; [done|]);
    intros p Hp; destruct (Hc p Hp) as [H1 H2]; split.
  - intros [?|?]; apply H1; [by left|right; lia].
  - intros Hpe Hle. apply H2; [done|].
    destruct (decide (idx p = n)) as [Heq|]; [|lia].
    rewrite (idx_inj p p0) in Hpe; [done..|lia].
  - intros [?|Hlt]; [apply H1; by left|].
    destruct (decide (idx p = n)) as [Heq|]; [|apply H1; right; lia].
    apply H1. left. rewrite (idx_inj p p0); [done..|lia].
  - intros Hpe Hle. apply H2; [done|lia].
Qed.

Lemma is_digit_not_empty v : is_digit v → v ≠ EMPTY_VAL.
Proof. unfold is_digit, EMPTY_VAL. lia. Qed.

Lemma completes_assign n t t' i j v :
  table_wf t → in_grid (i, j) → idx (i, j) = n →
  value t (i, j) = EMPTY_VAL → is_digit v →
  completes (S n) (set_val i j v t) t' → completes n t t'.
Proof.
  intros Hwf Hp0 Hn He Hv [Hwf' Hc]. split; [done|].
  intros p Hp. destruct (Hc p Hp) as [H1 H2].
  destruct (decide (p = (i, j))) as [->|Hne].
  - rewrite value_set_val_eq in H1 by done. split.
    + intros [?|?]; [done|lia].
    + intros _ _. rewrite H1; [done|]. left. by apply is_digit_not_empty.
  - rewrite value_set_val_ne in H1, H2 by done. split.
    + intros [?|?]; apply H1; [by left|right; lia].
    + intros Hpe Hle. apply H2; [done|].
      destruct (decide (idx p = n)) as [Heq|]; [|lia].
      destruct Hne. apply idx_inj; [done..|lia].
Qed.

Lemma completes_assigned n t t' i j :
  table_wf t → in_grid (i, j) → idx (i, j) = n →
  value t (i, j) = EMPTY_VAL →
  completes n t t' →
  is_digit (value t' (i, j))
  ∧ completes (S n) (set_val i j (value t' (i, j)) t) t'.
Proof.
  intros Hwf Hp0 Hn He [Hwf' Hc].
  assert (is_digit (value t' (i, j))) as Hv.
  { apply Hc; [done..|lia]. }
  split; [done|]. split; [done|].
  intros p Hp. destruct (Hc p Hp) as [H1 H2].
  destruct (decide (p = (i, j))) as [->|Hne].
  - rewrite value_set_val_eq by done. split; [done|].
    intros Hpe. by apply is_digit_not_empty in Hv.
  - rewrite value_set_val_ne by done. split.
    + intros [?|Hlt]; [apply H1; by left|].
      destruct (decide (idx p = n)) as [Heq|]; [|apply H1; right; lia].
      destruct Hne. apply idx_inj; [done..|lia].
    + intros Hpe Hle. apply H2; [done|lia].
Qed.

Lemma not_valid_not_solvable n t :
  is_sudoku_valid t ≠ true → ¬ solvable_from n t.
Proof.
  intros Hv (t' & Hc & Hcons). apply Hv, is_sudoku_valid_consistent.
  by eapply completes_consistent.
Qed.

Lemma writes_only_empty_nil t : writes_only_empty t [].
Proof. intros x Hx. by apply elem_of_nil in Hx. Qed.

Lemma writes_only_empty_app t l1 l2 :
  writes_only_empty t l1 → writes_only_empty t l2 →
  writes_only_empty t (l1 ++ l2).
Proof. intros H1 H2 x [?|?]%elem_of_app; auto. Qed.

Lemma writes_only_empty_one t i j v :
  in_grid (i, j) → value t (i, j) = EMPTY_VAL →
  writes_only_empty t [(i, j, v)].
Proof. intros ? ? x ->%list_elem_of_singleton. done. Qed.

Lemma writes_only_empty_set_val t i j v new :
  table_wf t → in_grid (i, j) → is_digit v →
  writes_only_empty (set_val i j v t) new → writes_only_empty t new.
Proof.
  intros Hwf Hp Hv Hnew x Hx. destruct (Hnew x Hx) as [Hg He].
  split; [done|]. rewrite value_set_val in He by done.
  case_decide; [|done]. by apply is_digit_not_empty in Hv.
Qed.

(** ** The solvability search *)

Section search_proofs.
Context {Rng : Type} `{!Random Rng}.

Lemma shuffled_digits (g : Rng) vals g' :
  shuffle g (seqZ 1 9) = (vals, g') →
  ∀ v, v ∈ vals ↔ is_digit v.
Proof.
  intros Hsh v. pose proof (shuffle_perm Z g (seqZ 1 9)) as Hperm.
  rewrite Hsh in Hperm. simpl in Hperm.
  rewrite Hperm, elem_of_seqZ. unfold is_digit. lia.
Qed.

Lemma try_vals_total rec i j vals (w : World Rng) :
  (∀ w, is_Some (rec w)) → is_Some (try_vals rec i j vals w).
Proof.
  intros Hrec. revert w. induction vals as [|v vals IH]; intros w; simpl.
  { eauto. }
  destruct (Hrec (assign i j v w)) as [[[] w1] ->]; eauto.
Qed.

Lemma backtracing_total fuel i j (w : World Rng) :
  81 - start_idx i j < fuel → is_Some (backtracing fuel i j w).
Proof.
  revert i j w. induction fuel as [|fuel IH]; intros i j w Hf; [lia|].
  simpl. destruct (negb (is_sudoku_valid (table w))); [eauto|].
  destruct (next_row i j) as [i' j'] eqn:Hn.
  apply next_row_spec in Hn as (Hj & Hs & Hs').
  destruct (decide (9 ≤ i')); [eauto|].
  assert (81 - start_idx i' (j' + 1) < fuel) as Hlt.
  { rewrite Hs'. rewrite Hs in Hf. unfold idx in *. simpl in *. lia. }
  destruct (negb (is_empty _)); [by apply IH|].
  destruct (shuffle _ _) as [vals g].
  apply try_vals_total. intros w'. by apply IH.
Qed.

Lemma try_vals_mono rec rec' i j vals (w : World Rng) x :
  (∀ w y, rec w = Some y → rec' w = Some y) →
  try_vals rec i j vals w = Some x → try_vals rec' i j vals w = Some x.
Proof.
  intros Hrec. revert w. induction vals as [|v vals IH]; intros w; simpl.
  { done. }
  destruct (rec (assign i j v w)) as [[[] w1]|] eqn:Hr; [| |done];
    rewrite (Hrec _ _ Hr); auto.
Qed.

Lemma backtracing_mono fuel fuel' i j (w : World Rng) x :
  fuel ≤ fuel' →
  backtracing fuel i j w = Some x → backtracing fuel' i j w = Some x.
Proof.
  revert fuel' i j w x. induction fuel as [|fuel IH];
    intros fuel' i j w x Hle; [done|].
  destruct fuel' as [|fuel']; [lia|]. simpl.
  destruct (negb (is_sudoku_valid (table w))); [done|].
  destruct (next_row i j) as [i' j'].
  destruct (decide (9 ≤ i')); [done|].
  destruct (negb (is_empty _)); [apply IH; lia|].
  destruct (shuffle _ _) as [vals g].
  apply try_vals_mono. intros w' y. apply IH. lia.
Qed.

Lemma try_vals_spec rec i j n vals (w : World Rng) r w' :
  (∀ w r w', table_wf (table w) → rec w = Some (r, w') →
     check_post (S n) w r w') →
  table_wf (table w) → in_grid (i, j) → idx (i, j) = n →
  value (table w) (i, j) = EMPTY_VAL →
  (∀ v, v ∈ vals → is_digit v) →
  try_vals rec i j vals w = Some (r, w') →
  table w' = table w
  ∧ (∃ new, writes w' = writes w ++ new ∧ writes_only_empty (table w) new)
  ∧ (r = true ↔
       ∃ v, v ∈ vals ∧ solvable_from (S n) (set_val i j v (table w))).
Proof.
  intros Hrec Hwf Hp Hn. revert w Hwf.
  induction vals as [|v vals IH]; intros w Hwf He Hvals; simpl.
  { intros [= <- <-]. split; [done|]. split.
    - exists []. rewrite app_nil_r. split; [done|].
      apply writes_only_empty_nil.
    - split; [done|]. intros (v & Hv & _). by apply elem_of_nil in Hv. }
  assert (is_digit v) as Hv by (apply Hvals; by left).
  destruct (rec (assign i j v w)) as [[r1 w1]|] eqn:Hr; [|done].
  apply Hrec in Hr as (Ht1 & (new1 & Hw1 & Hnew1) & Hr1);
    [|by apply set_val_wf].
  simpl in Ht1, Hw1, Hnew1, Hr1.
  apply writes_only_empty_set_val in Hnew1; [|done..].
  assert (table (assign i j EMPTY_VAL w1) = table w) as Hback.
  { simpl. rewrite Ht1. by apply set_val_undo. }
  assert (writes (assign i j EMPTY_VAL w1)
          = writes w ++ ([(i, j, v)] ++ new1 ++ [(i, j, EMPTY_VAL)])) as Hlog.
  { simpl. rewrite Hw1. by rewrite <-!app_assoc. }
  assert (writes_only_empty (table w)
            ([(i, j, v)] ++ new1 ++ [(i, j, EMPTY_VAL)])) as Hnew.
  { repeat apply writes_only_empty_app;
      [by apply writes_only_empty_one|done|by apply writes_only_empty_one]. }
  destruct r1.
  - intros [= <- <-]. split; [done|]. split; [eauto|].
    split; [|done]. intros _. exists v. split; [by left|]. by apply Hr1.
  - intros Hloop. apply IH in Hloop as (Ht & (new2 & Hw2 & Hnew2) & Hres).
    + rewrite Hback in Ht, Hnew2, Hres. split; [done|]. split.
      * exists (([(i, j, v)] ++ new1 ++ [(i, j, EMPTY_VAL)]) ++ new2).
        split; [by rewrite Hw2, Hlog, <-!app_assoc|].
        by apply writes_only_empty_app.
      * rewrite Hres. split.
        -- intros (v' & Hv' & Hs). exists v'. split; [by right|done].
        -- intros (v' & [->|Hv']%elem_of_cons & Hs); [|eauto].
           apply Hr1 in Hs. done.
    + by rewrite Hback.
    + by rewrite Hback.
    + intros v' Hv'. apply Hvals. by right.
Qed.

Lemma backtracing_spec fuel i j (w : World Rng) r w' :
  table_wf (table w) →
  backtracing fuel i j w = Some (r, w') →
  check_post (start_idx i j) w r w'.
Proof.
  revert i j w r w'. induction fuel as [|fuel IH];
    intros i j w r w' Hwf; [done|].
  simpl. destruct (is_sudoku_valid (table w)) eqn:Hvalid; simpl.
  2:{ intros [= <- <-]. split; [done|]. split.
      - exists []. rewrite app_nil_r. split; [done|].
        apply writes_only_empty_nil.
      - split; [done|]. intros Hs. exfalso.
        apply (not_valid_not_solvable _ (table w)) in Hs; [done|].
        by rewrite Hvalid. }
  destruct (next_row i j) as [i' j'] eqn:Hn.
  apply next_row_spec in Hn as (Hj & -> & Hs').
  destruct (decide (9 ≤ i')) as [Hi|Hi].
  { intros [= <- <-]. split; [done|]. split.
    - exists []. rewrite app_nil_r. split; [done|].
      apply writes_only_empty_nil.
    - split; [|done]. intros _. exists (table w). split.
      + apply completes_refl; [done|]. unfold idx; simpl. lia.
      + by apply is_sudoku_valid_consistent. }
  assert (in_grid (i', j')) as Hp by (split; simpl; lia).
  destruct (is_empty (cell_at (table w) i' j')) eqn:Hempty; simpl.
  - apply bool_decide_eq_true_1 in Hempty.
    destruct (shuffle (rng w) (seqZ 1 9)) as [vals g] eqn:Hsh.
    pose proof (shuffled_digits _ _ _ Hsh) as Hvals.
    intros Hloop.
    apply (try_vals_spec _ i' j' (idx (i', j'))) in Hloop
      as (Ht & Hlog & Hres); try done.
    + simpl in Ht, Hlog, Hres. split; [done|]. split; [done|].
      rewrite Hres. split.
      * intros (v & Hv & t' & Hc & Hcons). exists t'. split; [|done].
        apply (completes_assign _ _ _ i' j' v); try done. by apply Hvals.
      * intros (t' & Hc & Hcons).
        apply (completes_assigned _ _ _ i' j') in Hc as [Hv Hc]; [|done..].
        exists (value t' (i', j')). split; [by apply Hvals|].
        by exists t'.
    + intros w1 r1 w1' Hwf1 Hrec. rewrite <-Hs'. by apply IH.
    + intros v Hv. by apply Hvals.
  - apply bool_decide_eq_false_1 in Hempty.
    intros Hrec. apply IH in Hrec as (Ht & Hlog & Hres); [|done].
    split; [done|]. split; [done|].
    rewrite Hres, Hs'. unfold solvable_from.
    split; intros (t' & Hc & Hcons); exists t'; (split; [|done]);
      by eapply (completes_skip (idx (i', j')) _ _ (i', j')).
Qed.

End search_proofs.

(** ** The generation search *)

Section generation_proofs.
Context {Rng : Type} `{!Random Rng}.

Lemma fill_vals_total rec i j vals (w : World Rng) :
  (∀ w, is_Some (rec w)) → is_Some (fill_vals rec i j vals w).
Proof.
  intros Hrec. revert w. induction vals as [|v vals IH]; intros w; simpl.
  { eauto. }
  destruct (Hrec (assign i j v w)) as [[[] w1] ->]; eauto.
Qed.

Lemma get_random_table_total fuel i j (w : World Rng) :
  81 - start_idx i j < fuel → is_Some (_get_random_table fuel i j w).
Proof.
  revert i j w. induction fuel as [|fuel IH]; intros i j w Hf; [lia|].
  simpl. destruct (negb (is_sudoku_valid (table w))); [eauto|].
  destruct (next_row i j) as [i' j'] eqn:Hn.
  apply next_row_spec in Hn as (Hj & Hs & Hs').
  destruct (decide (9 ≤ i')); [eauto|].
  assert (81 - start_idx i' (j' + 1) < fuel) as Hlt.
  { rewrite Hs'. rewrite Hs in Hf. unfold idx in *. simpl in *. lia. }
  destruct (shuffle _ _) as [vals g].
  apply fill_vals_total. intros w'. by apply IH.
Qed.

Lemma fill_vals_mono rec rec' i j vals (w : World Rng) x :
  (∀ w y, rec w = Some y → rec' w = Some y) →
  fill_vals rec i j vals w = Some x → fill_vals rec' i j vals w = Some x.
Proof.
  intros Hrec. revert w. induction vals as [|v vals IH]; intros w; simpl.
  { done. }
  destruct (rec (assign i j v w)) as [[[] w1]|] eqn:Hr; [| |done];
    rewrite (Hrec _ _ Hr); auto.
Qed.

Lemma get_random_table_mono fuel fuel' i j (w : World Rng) x :
  fuel ≤ fuel' →
  _get_random_table fuel i j w = Some x →
  _get_random_table fuel' i j w = Some x.
Proof.
  revert fuel' i j w x. induction fuel as [|fuel IH];
    intros fuel' i j w x Hle; [done|].
  destruct fuel' as [|fuel']; [lia|]. simpl.
  destruct (negb (is_sudoku_valid (table w))); [done|].
  destruct (next_row i j) as [i' j'].
  destruct (decide (9 ≤ i')); [done|].
  destruct (shuffle _ _) as [vals g].
  apply fill_vals_mono. intros w' y. apply IH. lia.
Qed.

Lemma empty_from_set_val n i j v t :
  table_wf t → in_grid (i, j) → idx (i, j) = n →
  empty_from n t → empty_from (S n) (set_val i j v t).
Proof.
  intros Hwf Hp Hn He p Hg Hle. rewrite value_set_val_ne; [|done..|].
  - apply He; [done|lia].
  - intros ->. lia.
Qed.

Lemma fill_vals_spec rec i j n vals (w : World Rng) r w' :
  (∀ w r w', table_wf (table w) → empty_from (S n) (table w) →
     rec w = Some (r, w') → fill_post (S n) w r w') →
  table_wf (table w) → in_grid (i, j) → idx (i, j) = n →
  empty_from n (table w) →
  (∀ v, v ∈ vals → is_digit v) →
  fill_vals rec i j vals w = Some (r, w') →
  if r then completes n (table w) (table w')
            ∧ is_sudoku_valid (table w') = true
  else table w' = table w
       ∧ ∀ v, v ∈ vals → ¬ solvable_from (S n) (set_val i j v (table w)).
Proof.
  intros Hrec Hwf Hp Hn. revert w Hwf.
  induction vals as [|v vals IH]; intros w Hwf He Hvals; simpl.
  { intros [= <- <-]. split; [done|]. intros v Hv. by apply elem_of_nil in Hv. }
  assert (is_digit v) as Hv by (apply Hvals; by left).
  assert (value (table w) (i, j) = EMPTY_VAL) as Hcell.
  { apply He; [done|lia]. }
  destruct (rec (assign i j v w)) as [[r1 w1]|] eqn:Hr; [|done].
  apply Hrec in Hr;
    [|by apply set_val_wf|by apply empty_from_set_val].
  destruct r1.
  - destruct Hr as [Hc Hvalid]. intros [= <- <-]. split; [|done].
    by apply (completes_assign _ _ _ i j v).
  - destruct Hr as [Ht1 Hno]. simpl in Ht1, Hno.
    assert (table (assign i j EMPTY_VAL w1) = table w) as Hback.
    { simpl. rewrite Ht1. by apply set_val_undo. }
    intros Hloop. apply IH in Hloop.
    + rewrite Hback in Hloop. destruct r; [done|].
      destruct Hloop as [Ht Hrest]. split; [done|].
      intros v' [->|Hv']%elem_of_cons; [done|by apply Hrest].
    + by rewrite Hback.
    + by rewrite Hback.
    + intros v' Hv'. apply Hvals. by right.
Qed.

Lemma get_random_table_spec fuel i j (w : World Rng) r w' :
  table_wf (table w) → empty_from (start_idx i j) (table w) →
  _get_random_table fuel i j w = Some (r, w') →
  fill_post (start_idx i j) w r w'.
Proof.
  revert i j w r w'. induction fuel as [|fuel IH];
    intros i j w r w' Hwf He; [done|].
  simpl. destruct (is_sudoku_valid (table w)) eqn:Hvalid; simpl.
  2:{ intros [= <- <-]. split; [done|].
      apply not_valid_not_solvable. by rewrite Hvalid. }
  destruct (next_row i j) as [i' j'] eqn:Hn.
  apply next_row_spec in Hn as (Hj & Hs & Hs'). rewrite Hs in He |- *.
  destruct (decide (9 ≤ i')) as [Hi|Hi].
  { intros [= <- <-]. split; [|done].
    apply completes_refl; [done|]. unfold idx; simpl. lia. }
  assert (in_grid (i', j')) as Hp by (split; simpl; lia).
  destruct (shuffle (rng w) (seqZ 1 9)) as [vals g] eqn:Hsh.
  pose proof (shuffled_digits _ _ _ Hsh) as Hvals.
  intros Hloop.
  apply (fill_vals_spec _ i' j' (idx (i', j'))) in Hloop; try done.
  - destruct r; [done|]. destruct Hloop as [Ht Hno]. simpl in Ht, Hno.
    split; [done|]. intros (t' & Hc & Hcons).
    apply (completes_assigned _ _ _ i' j') in Hc as [Hv Hc]; try done.
    + apply (Hno (value t' (i', j'))); [by apply Hvals|]. by exists t'.
    + apply He; [done|lia].
  - intros w1 r1 w1' Hwf1 He1 Hrec. rewrite <-Hs'. apply IH; [done| |done].
    by rewrite Hs'.
  - intros v Hv. by apply Hvals.
Qed.

End generation_proofs.

(** ** Filled consistent tables *)

Lemma digits_perm (l : list Z) :
  length l = 9 → NoDup l → (∀ v, v ∈ l → is_digit v) → l ≡ₚ seqZ 1 9.
Proof.
  intros Hlen Hnd Hd. apply submseteq_length_Permutation.
  - apply NoDup_submseteq; [done|]. intros v Hv%Hd.
    apply elem_of_seqZ. unfold is_digit in Hv. lia.
  - rewrite length_seqZ, Hlen. done.
Qed.

Lemma block_cell_spec b k :
  b < 9 → k < 9 →
  in_grid (b / 3 * 3 + k / 3, b `mod` 3 * 3 + k `mod` 3)
  ∧ block_of (b / 3 * 3 + k / 3) (b `mod` 3 * 3 + k `mod` 3) = b.
Proof.
  intros Hb Hk. unfold in_grid, block_of.
  do 9 (destruct b as [|b];
    [do 9 (destruct k as [|k]; [vm_compute; repeat split; lia|]); lia|]).
  lia.
Qed.

Lemma units_of_full_consistent t :
  full t → consistent t →
  (∀ i, i < 9 → row_values t i ≡ₚ seqZ 1 9)
  ∧ (∀ j, j < 9 → col_values t j ≡ₚ seqZ 1 9)
  ∧ (∀ b, b < 9 → block_values t b ≡ₚ seqZ 1 9).
Proof.
  intros Hfull Hcons.
  assert (∀ (f : nat → nat * nat),
    (∀ k, k < 9 → in_grid (f k)) →
    (∀ k k', k < 9 → k' < 9 → same_unit (f k) (f k')) →
    (∀ k k', k < 9 → k' < 9 → f k = f k' → k = k') →
    ((λ k, value t (f k)) <$> seq 0 9) ≡ₚ seqZ 1 9) as Hunit.
  { intros f Hg Hu Hinj. apply digits_perm.
    - by rewrite length_fmap.
    - apply NoDup_fmap_2_strong; [|apply NoDup_seq].
      intros k k' Hk%elem_of_seq Hk'%elem_of_seq Hv.
      destruct (decide (f k = f k')) as [Heq|Hne]; [apply Hinj; [lia..|done]|].
      exfalso. revert Hv. apply Hcons; try done;
        try (apply Hg; lia); try (apply Hu; lia);
        apply is_digit_not_empty, Hfull, Hg; lia.
    - intros v (k & -> & Hk%elem_of_seq)%list_elem_of_fmap.
      apply Hfull, Hg. lia. }
  split; [|split].
  - intros i Hi. apply (Hunit (λ j, (i, j))).
    + intros k Hk. split; simpl; lia.
    + intros k k' _ _. by left.
    + by intros k k' _ _ [= ->].
  - intros j Hj. apply (Hunit (λ i, (i, j))).
    + intros k Hk. split; simpl; lia.
    + intros k k' _ _. right. by left.
    + by intros k k' _ _ [= ->].
  - intros b Hb.
    apply (Hunit (λ k, (b / 3 * 3 + k / 3, b `mod` 3 * 3 + k `mod` 3))).
    + intros k Hk. by apply block_cell_spec.
    + intros k k' Hk Hk'. right. right. transitivity b.
      * exact (proj2 (block_cell_spec b k Hb Hk)).
      * symmetry. exact (proj2 (block_cell_spec b k' Hb Hk')).
    + intros k k' Hk Hk' Heq.
      pose proof (f_equal fst Heq) as H1. pose proof (f_equal snd Heq) as H2.
      cbn [fst snd] in H1, H2.
      assert (k / 3 = k' / 3) by lia.
      assert (k `mod` 3 = k' `mod` 3) by lia.
      rewrite (Nat.div_mod_eq k 3), (Nat.div_mod_eq k' 3). lia.
Qed.

(** ** The empty board has a completion *)

Lemma solved_table_wf : table_wf solved_table.
Proof. split; [done|]. by repeat constructor. Qed.

Lemma solved_table_full : full solved_table.
Proof.
  intros p Hp%elem_of_positions. revert p Hp. apply Forall_forall.
  apply (bool_decide_unpack (Forall _ positions)). by vm_compute.
Qed.

Lemma solved_table_consistent : consistent solved_table.
Proof. apply is_sudoku_valid_consistent. by vm_compute. Qed.

Lemma empty_table_solvable t :
  table_wf t → empty_from 0 t → solvable_from 0 t.
Proof.
  intros Hwf He. exists solved_table. split; [|apply solved_table_consistent].
  split; [apply solved_table_wf|]. intros p Hp. split.
  - intros [Hne|?]; [|lia]. destruct Hne. apply He; [done|lia].
  - intros _ _. by apply solved_table_full.
Qed.

Lemma completes_full t t' : empty_from 0 t → completes 0 t t' → full t'.
Proof.
  intros He [_ Hc] p Hp. apply Hc; [done| |lia]. apply He; [done|lia].
Qed.

(** ** Masking *)

Lemma foldl_snoc {A B} (f : A → B → A) a l x :
  foldl f a (l ++ [x]) = f (foldl f a l) x.
Proof. revert a. induction l as [|y l IH]; intros a; simpl; [done|apply IH]. Qed.

Lemma elem_of_drop_lookup {A} (l : list A) n x :
  x ∈ drop n l ↔ ∃ k, l !! k = Some x ∧ n ≤ k.
Proof.
  rewrite list_elem_of_lookup. split.
  - intros [k Hk]. rewrite lookup_drop in Hk. exists (n + k). split; [done|lia].
  - intros (k & Hk & Hle). exists (k - n). rewrite lookup_drop.
    by replace (n + (k - n)) with k by lia.
Qed.

Section masking_proofs.
Context {Rng : Type} `{!Random Rng}.

Lemma fill_vals_preserves (P : Table → Prop) rec i j vals
    (w : World Rng) r w' :
  (∀ v t, P t → P (set_val i j v t)) →
  (∀ w r w', P (table w) → rec w = Some (r, w') → P (table w')) →
  P (table w) → fill_vals rec i j vals w = Some (r, w') → P (table w').
Proof.
  intros Hset Hrec. revert w. induction vals as [|v vals IH]; intros w HP.
  { by intros [= <- <-]. }
  simpl. destruct (rec (assign i j v w)) as [[r1 w1]|] eqn:Hr; [|done].
  apply Hrec in Hr; [|by apply Hset]. destruct r1.
  - by intros [= <- <-].
  - apply IH. by apply Hset.
Qed.

Lemma get_random_table_preserves (P : Table → Prop) fuel i j
    (w : World Rng) r w' :
  (∀ i j v t, P t → P (set_val i j v t)) →
  P (table w) → _get_random_table fuel i j w = Some (r, w') → P (table w').
Proof.
  intros Hset. revert i j w r w'. induction fuel as [|fuel IH];
    intros i j w r w' HP; [done|].
  simpl. destruct (negb (is_sudoku_valid (table w))); [by intros [= <- <-]|].
  destruct (next_row i j) as [i' j'].
  destruct (decide (9 ≤ i')); [by intros [= <- <-]|].
  destruct (shuffle _ _) as [vals g].
  apply fill_vals_preserves; [by auto| |done].
  intros w1 r1 w1'. apply IH.
Qed.

(** The cells of the table after [m] rounds of the masking loop over the
    shuffled positions [l], in terms of the generated table [tg]. *)
Lemma mask_loop_spec (l : list (nat * nat)) (w : World Rng) tg m :
  table w = tg → table_wf tg → NoDup l → Forall in_grid l → m ≤ length l →
  let t := table (foldl (mask_step l) w (seq 0 m)) in
  table_wf t ∧
  ∀ k p, l !! k = Some p →
    value t p =
      (if decide (k < m ∧ k < 81 - keep_num_of_cells)
       then EMPTY_VAL else value tg p)
    ∧ clickable t p =
        (if decide (k < m ∧ ¬ k < 81 - keep_num_of_cells)
         then false else clickable tg p).
Proof.
  intros Ht Hwf Hnd Hg. induction m as [|m IH]; intros Hm; cbv zeta.
  { change (foldl (mask_step l) w (seq 0 0)) with w.
    rewrite Ht. split; [done|]. intros k p _.
    rewrite !decide_False by lia. done. }
  rewrite seq_S, foldl_snoc, Nat.add_0_l.
  destruct IH as [Hwf' IH]; [lia|]. cbv zeta in Hwf', IH.
  set (w1 := foldl (mask_step l) w (seq 0 m)) in *.
  destruct (lookup_lt_is_Some_2 l m) as [[i j] Hij]; [lia|].
  assert (in_grid (i, j)) as Hp.
  { eapply Forall_forall; [done|]. by eapply list_elem_of_lookup_2. }
  unfold mask_step. rewrite (list_lookup_total_correct _ _ _ Hij).
  destruct (decide (m < 81 - keep_num_of_cells)) as [Hlt|Hge];
    cbn [table assign with_table].
  - split; [by apply set_val_wf|]. intros k p Hk.
    rewrite value_set_val by done. rewrite clickable_set_val.
    destruct (IH k p Hk) as [-> ->].
    destruct (decide (p = (i, j))) as [->|Hne].
    + assert (k = m) as -> by (by eapply NoDup_lookup).
      rewrite decide_True by lia. rewrite !decide_False by lia. done.
    + assert (k ≠ m) by (intros ->; congruence).
      split; apply decide_ext; lia.
  - split; [by apply set_clickable_wf|]. intros k p Hk.
    rewrite value_set_clickable, clickable_set_clickable by done.
    destruct (IH k p Hk) as [-> ->].
    destruct (decide (p = (i, j))) as [->|Hne].
    + assert (k = m) as -> by (by eapply NoDup_lookup).
      rewrite !decide_False by lia. rewrite decide_True by lia. done.
    + assert (k ≠ m) by (intros ->; congruence).
      split; apply decide_ext; lia.
Qed.

End masking_proofs.

(** * The properties of the program *)

Lemma completion_of_completes t t' : completion_of t t' ↔ completes 0 t t'.
Proof.
  split; intros [Hwf Hc]; (split; [done|]); intros p Hp;
    specialize (Hc p Hp).
  - case_decide as He; split; try done.
    intros [?|?]; [done|lia].
  - destruct Hc as [H1 H2]. case_decide as He.
    + apply H2; [done|lia].
    + apply H1. by left.
Qed.

Lemma all_empty_empty_from t : all_empty t → empty_from 0 t.
Proof. intros He p Hp _. by apply He. Qed.

Lemma value_clear_cells ps t q :
  table_wf t → Forall in_grid ps →
  table_wf (clear_cells ps t)
  ∧ (value (clear_cells ps t) q = value t q
     ∨ value (clear_cells ps t) q = EMPTY_VAL).
Proof.
  intros Hwf. induction 1 as [|[i j] ps Hp Hps IH]; simpl; [by auto|].
  destruct IH as [Hwf' IH]. split; [by apply set_val_wf|].
  rewrite value_set_val by done. case_decide; [by right|done].
Qed.

Section claims.
Context {Rng : Type} `{!Random Rng}.

(** C1: on every board, [is_possible_sudoku_table] returns, and it returns
    true exactly when the empty cells can be given digits 1..9 so that the
    filled board has no repeated value in any row, column or 3x3 block. *)
Theorem is_possible_sudoku_table_iff_completion (w : World Rng) :
  table_wf (table w) →
  ∃ r w', is_possible_sudoku_table w = Some (r, w')
    ∧ (r = true ↔ ∃ t', completion_of (table w) t' ∧ consistent t').
Proof.
  intros Hwf.
  destruct (backtracing_total search_fuel 0 0 w) as [[r w'] Hrun].
  { unfold search_fuel. lia. }
  exists r, w'. split; [done|].
  apply backtracing_spec in Hrun as (_ & _ & Hres); [|done].
  rewrite Hres. unfold solvable_from.
  split; intros (t' & Hc & Hcons); exists t'; (split; [|done]);
    by apply completion_of_completes.
Qed.

(** C3: whatever [is_possible_sudoku_table] returns, the table it leaves
    is the table it was called on: every cell has its value (and flags)
    of before the call. *)
Theorem is_possible_sudoku_table_restores (w : World Rng) :
  table_wf (table w) →
  ∃ r w', is_possible_sudoku_table w = Some (r, w')
    ∧ table w' = table w
    ∧ ∀ i j, val (cell_at (table w') i j) = val (cell_at (table w) i j).
Proof.
  intros Hwf.
  destruct (backtracing_total search_fuel 0 0 w) as [[r w'] Hrun].
  { unfold search_fuel. lia. }
  exists r, w'. split; [done|].
  apply backtracing_spec in Hrun as (Ht & _ & _); [|done].
  split; [done|]. intros i j. by rewrite Ht.
Qed.

(** C7: every assignment [is_possible_sudoku_table] makes during its
    search targets a cell of the grid that was empty when the call
    started; hence, when the non-clickable cells all hold a value, no
    assignment targets a non-clickable cell. *)
Theorem is_possible_sudoku_table_writes_empty_only (w : World Rng) :
  table_wf (table w) →
  ∃ r w' new, is_possible_sudoku_table w = Some (r, w')
    ∧ writes w' = writes w ++ new
    ∧ (∀ i j v, (i, j, v) ∈ new →
         in_grid (i, j) ∧ value (table w) (i, j) = EMPTY_VAL)
    ∧ ((∀ p, in_grid p → clickable (table w) p = false →
           value (table w) p ≠ EMPTY_VAL) →
       ∀ i j v, (i, j, v) ∈ new → clickable (table w) (i, j) = true).
Proof.
  intros Hwf.
  destruct (backtracing_total search_fuel 0 0 w) as [[r w'] Hrun].
  { unfold search_fuel. lia. }
  pose proof Hrun as Hspec.
  apply backtracing_spec in Hspec as (_ & (new & Hlog & Hnew) & _); [|done].
  exists r, w', new. split; [done|]. split; [done|].
  assert (∀ i j v, (i, j, v) ∈ new →
            in_grid (i, j) ∧ value (table w) (i, j) = EMPTY_VAL) as Hall.
  { intros i j v Hin. apply (Hnew _ Hin). }
  split; [done|]. intros Hgiven i j v Hin.
  destruct (Hall i j v Hin) as [Hg He].
  destruct (clickable (table w) (i, j)) eqn:Hc; [done|].
  by apply Hgiven in Hc.
Qed.

(** C9: both searches terminate on every board: from any position, a
    recursion depth above the number of positions left in row-major order
    is enough for the call to return a boolean, and any larger depth gives
    the same result. *)
Theorem searches_terminate (w : World Rng) (i j fuel : nat) :
  table_wf (table w) → 81 - start_idx i j < fuel →
  (∃ r w', backtracing fuel i j w = Some (r, w')
     ∧ ∀ fuel', fuel ≤ fuel' → backtracing fuel' i j w = Some (r, w'))
  ∧ (∃ r w', _get_random_table fuel i j w = Some (r, w')
       ∧ ∀ fuel', fuel ≤ fuel' →
           _get_random_table fuel' i j w = Some (r, w')).
Proof.
  intros _ Hfuel. split.
  - destruct (backtracing_total fuel i j w Hfuel) as [[r w'] Hrun].
    exists r, w'. split; [done|]. intros fuel' Hle.
    by apply (backtracing_mono fuel).
  - destruct (get_random_table_total fuel i j w Hfuel) as [[r w'] Hrun].
    exists r, w'. split; [done|]. intros fuel' Hle.
    by apply (get_random_table_mono fuel).
Qed.

End claims.

(** C2: [is_sudoku_valid] returns true exactly when no two distinct
    non-empty cells in one row, one column or one 3x3 block (block index
    [i / 3 * 3 + j / 3]) hold the same value; empty cells never count. *)
Theorem is_sudoku_valid_iff_consistent (t : Table) :
  table_wf t → is_sudoku_valid t = true ↔ consistent t.
Proof. intros _. apply is_sudoku_valid_consistent. Qed.

(** C8: emptying any cells of a board that [is_sudoku_valid] accepts gives
    a board it accepts too. *)
Theorem is_sudoku_valid_clear_cells (t : Table) (ps : list (nat * nat)) :
  table_wf t → Forall in_grid ps →
  is_sudoku_valid t = true → is_sudoku_valid (clear_cells ps t) = true.
Proof.
  intros Hwf Hps. rewrite !is_sudoku_valid_consistent.
  apply consistent_mono. intros p _.
  by destruct (value_clear_cells ps t p Hwf Hps) as [_ [?|?]]; [left|right].
Qed.

(** C10: [is_sudoku_valid] does not look at the range of the values: a
    board with a non-empty cell outside 1..9 is accepted as soon as no two
    non-empty cells of one row, column or block hold the same value. *)
Theorem is_sudoku_valid_accepts_out_of_range (t : Table) (p : nat * nat) :
  table_wf t → in_grid p →
  value t p ≠ EMPTY_VAL → ¬ is_digit (value t p) →
  consistent t → is_sudoku_valid t = true.
Proof. intros _ _ _ _. apply is_sudoku_valid_consistent. Qed.

Section generation_claims.
Context {Rng : Type} `{!Random Rng}.

Lemma generation_succeeds fuel (w : World Rng) :
  table_wf (table w) → all_empty (table w) → 81 < fuel →
  ∃ w', _get_random_table fuel 0 0 w = Some (true, w').
Proof.
  intros Hwf He%all_empty_empty_from Hfuel.
  destruct (get_random_table_total fuel 0 0 w) as [[r w'] Hrun].
  { change (start_idx 0 0) with 0. lia. }
  exists w'. rewrite Hrun. pose proof Hrun as Hspec.
  apply get_random_table_spec in Hspec; [|done..].
  destruct r; [done|]. destruct Hspec as [_ Hno]. destruct Hno.
  by apply empty_table_solvable.
Qed.

(** C4: when [_get_random_table], started on an all-empty board, returns
    true, every cell of the board holds a digit 1..9, [is_sudoku_valid]
    accepts the board, and the values of each row, each column and each
    3x3 block are the digits 1..9, each once. *)
Theorem get_random_table_true_complete (fuel : nat) (w w' : World Rng) :
  table_wf (table w) → all_empty (table w) →
  _get_random_table fuel 0 0 w = Some (true, w') →
  full (table w')
  ∧ is_sudoku_valid (table w') = true
  ∧ (∀ i, i < 9 → row_values (table w') i ≡ₚ seqZ 1 9)
  ∧ (∀ j, j < 9 → col_values (table w') j ≡ₚ seqZ 1 9)
  ∧ (∀ b, b < 9 → block_values (table w') b ≡ₚ seqZ 1 9).
Proof.
  intros Hwf He%all_empty_empty_from Hrun.
  apply get_random_table_spec in Hrun as [Hc Hvalid]; [|done..].
  change (start_idx 0 0) with 0 in Hc.
  pose proof (completes_full _ _ He Hc) as Hfull.
  split; [done|]. split; [done|].
  apply units_of_full_consistent; [done|].
  by apply is_sudoku_valid_consistent.
Qed.

(** C5: on an all-empty board both [is_possible_sudoku_table] and
    [_get_random_table] return true, whatever permutations
    [random.shuffle] produces. *)
Theorem empty_board_searches_succeed (w : World Rng) :
  table_wf (table w) → all_empty (table w) →
  (∃ w', is_possible_sudoku_table w = Some (true, w'))
  ∧ (∃ w', _get_random_table search_fuel 0 0 w = Some (true, w')).
Proof.
  intros Hwf He. split.
  - destruct (backtracing_total search_fuel 0 0 w) as [[r w'] Hrun].
    { unfold search_fuel. lia. }
    exists w'. unfold is_possible_sudoku_table. rewrite Hrun.
    apply backtracing_spec in Hrun as (_ & _ & Hres); [|done].
    assert (r = true) as ->; [|done].
    apply Hres. by apply empty_table_solvable, all_empty_empty_from.
  - apply generation_succeeds; [done..|]. unfold search_fuel. lia.
Qed.

(** C6: [generate_table] returns, and in the table it leaves exactly
    81 - 30 = 51 cells are empty and clickable and exactly 30 cells hold
    the digit the generation gave them and are not clickable; the emptied
    cells are the first 51 of the permutation of the positions that
    [random.shuffle] returned. *)
Theorem generate_table_masks (w : World Rng) :
  ∃ wg w' all_pos g,
    generate_full w = Some (true, wg)
    ∧ shuffle (rng wg) positions = (all_pos, g)
    ∧ generate_table w = Some w'
    ∧ length (filter (λ p, value (table w') p = EMPTY_VAL
                           ∧ clickable (table w') p = true) positions)
      = 81 - keep_num_of_cells
    ∧ length (filter (λ p, value (table w') p = value (table wg) p
                           ∧ is_digit (value (table w') p)
                           ∧ clickable (table w') p = false) positions)
      = keep_num_of_cells
    ∧ 81 - keep_num_of_cells = 51 ∧ keep_num_of_cells = 30
    ∧ ∀ p, in_grid p →
        (value (table w') p = EMPTY_VAL ↔ p ∈ take 51 all_pos).
Proof.
  destruct (generation_succeeds search_fuel (with_table fresh_table w))
    as [wg Hgen].
  { apply fresh_table_wf. }
  { intros p Hp. by apply value_fresh_table. }
  { unfold search_fuel. lia. }
  assert (empty_from 0 fresh_table) as Hfresh.
  { intros p Hp _. by apply value_fresh_table. }
  pose proof Hgen as Hfull.
  apply get_random_table_spec in Hfull as [Hfull _];
    [|apply fresh_table_wf|done].
  pose proof Hfull as [Hwfg _].
  apply (completes_full _ _ Hfresh) in Hfull.
  assert (∀ q, in_grid q → clickable (table wg) q = true) as Hclick.
  { apply (get_random_table_preserves
             (λ t, ∀ q, in_grid q → clickable t q = true)
             search_fuel 0 0 (with_table fresh_table w) true wg);
      [| |exact Hgen].
    - intros i j v t Ht q Hq. rewrite clickable_set_val. by apply Ht.
    - intros q Hq%elem_of_positions. revert q Hq. apply Forall_forall.
      apply (bool_decide_unpack (Forall _ positions)). by vm_compute. }
  destruct (shuffle (rng wg) positions) as [l g] eqn:Hsh.
  assert (l ≡ₚ positions) as Hperm.
  { pose proof (shuffle_perm _ (rng wg) positions) as H.
    by rewrite Hsh in H. }
  assert (NoDup l) as Hnd by (rewrite Hperm; apply NoDup_positions).
  assert (Forall in_grid l) as Hgrid by (rewrite Hperm; apply positions_in_grid).
  assert (length l = 81) as Hlen by (by rewrite Hperm).
  destruct (mask_loop_spec l (with_rng g wg) (table wg) 81)
    as [Hwf' Hcells]; [done..|lia|]. cbv zeta in Hwf', Hcells.
  set (w' := foldl (mask_step l) (with_rng g wg) (seq 0 81)) in *.
  assert (generate_table w = Some w') as Hrun.
  { unfold generate_table, generate_full. rewrite Hgen.
    change (i ← seq 0 9; (λ j, (i, j)) <$> seq 0 9) with positions.
    by rewrite Hsh. }
  assert (∀ p, in_grid p → ∃ k, l !! k = Some p ∧ k < 81) as Hidx.
  { intros p Hp%elem_of_positions. rewrite <-Hperm in Hp.
    apply list_elem_of_lookup in Hp as [k Hk]. exists k. split; [done|].
    rewrite <-Hlen. by eapply lookup_lt_Some. }
  assert (∀ p, in_grid p →
            (value (table w') p = EMPTY_VAL ↔ p ∈ take 51 l)) as Hemptied.
  { intros p Hp. rewrite elem_of_take. split.
    - intros He. destruct (Hidx p Hp) as (k & Hk & Hlt). exists k.
      split; [done|]. destruct (Hcells k p Hk) as [Hv _].
      rewrite He in Hv. case_decide as Hd.
      + unfold keep_num_of_cells in Hd. lia.
      + symmetry in Hv. by apply is_digit_not_empty in Hv; [|apply Hfull].
    - intros (k & Hk & Hlt). destruct (Hcells k p Hk) as [-> _].
      rewrite decide_True; [done|]. unfold keep_num_of_cells in *. lia. }
  exists wg, w', l, g. do 3 (split; [done|]).
  split; [|split; [|split; [done|split; [done|done]]]].
  - rewrite <-(length_take_le l (81 - keep_num_of_cells))
      by (unfold keep_num_of_cells; lia).
    apply Permutation_length, NoDup_Permutation.
    + apply NoDup_filter, NoDup_positions.
    + eapply sublist_NoDup; [done|apply sublist_take].
    + intros p. rewrite list_elem_of_filter, elem_of_positions. split.
      * intros [[He _] Hp]. by apply Hemptied.
      * intros Hin. assert (in_grid p) as Hp.
        { eapply Forall_forall; [done|].
          eapply elem_of_sublist; [done|apply sublist_take]. }
        split; [|done]. split; [by apply Hemptied|].
        apply elem_of_take in Hin as (k & Hk & Hlt).
        destruct (Hcells k p Hk) as [_ ->].
        rewrite decide_False; [by apply Hclick|].
        unfold keep_num_of_cells in *. lia.
  - transitivity (length (drop (81 - keep_num_of_cells) l));
      [|by rewrite length_drop, Hlen].
    apply Permutation_length, NoDup_Permutation.
    + apply NoDup_filter, NoDup_positions.
    + eapply sublist_NoDup; [done|apply sublist_drop].
    + intros p. rewrite list_elem_of_filter, elem_of_positions.
      rewrite elem_of_drop_lookup. split.
      * intros [(_ & _ & Hc) Hp]. destruct (Hidx p Hp) as (k & Hk & Hlt).
        exists k. split; [done|]. destruct (Hcells k p Hk) as [_ Hc'].
        rewrite Hc in Hc'. case_decide as Hd; [unfold keep_num_of_cells in *; lia|].
        rewrite Hclick in Hc'; done.
      * intros (k & Hk & Hle). assert (in_grid p) as Hp.
        { eapply Forall_forall; [done|]. by eapply list_elem_of_lookup_2. }
        split; [|done]. destruct (Hcells k p Hk) as [Hv Hc].
        assert (k < 81) by (rewrite <-Hlen; by eapply lookup_lt_Some).
        unfold keep_num_of_cells in Hle, Hv, Hc.
        rewrite decide_False in Hv by lia.
        rewrite decide_True in Hc by lia.
        split; [done|]. split; [|done]. rewrite Hv. by apply Hfull.
Qed.

End generation_claims.

(** * The properties at concrete boards *)

Ltac table_shape :=
  split; [reflexivity | vm_compute; repeat constructor].

Lemma is_possible_sudoku_table_iff_completion_witness :
  table_wf (table sample_world)
  ∧ ∃ r w', is_possible_sudoku_table sample_world = Some (r, w')
      ∧ (r = true ↔
           ∃ t', completion_of (table sample_world) t' ∧ consistent t').
Proof.
  assert (table_wf (table sample_world)) as Hwf by table_shape.
  split; [exact Hwf|].
  exact (is_possible_sudoku_table_iff_completion sample_world Hwf).
Defined.

Lemma is_sudoku_valid_iff_consistent_witness :
  table_wf sample_table
  ∧ (is_sudoku_valid sample_table = true ↔ consistent sample_table).
Proof.
  assert (table_wf sample_table) as Hwf by table_shape.
  split; [exact Hwf|].
  exact (is_sudoku_valid_iff_consistent sample_table Hwf).
Defined.

Lemma is_possible_sudoku_table_restores_witness :
  table_wf (table sample_world)
  ∧ ∃ r w', is_possible_sudoku_table sample_world = Some (r, w')
      ∧ table w' = table sample_world
      ∧ ∀ i j, val (cell_at (table w') i j)
               = val (cell_at (table sample_world) i j).
Proof.
  assert (table_wf (table sample_world)) as Hwf by table_shape.
  split; [exact Hwf|].
  exact (is_possible_sudoku_table_restores sample_world Hwf).
Defined.

Lemma get_random_table_true_complete_witness :
  _get_random_table search_fuel 0 0 empty_world = Some (true, generated_world)
  ∧ full (table generated_world)
  ∧ is_sudoku_valid (table generated_world) = true
  ∧ (∀ i, i < 9 → row_values (table generated_world) i ≡ₚ seqZ 1 9)
  ∧ (∀ j, j < 9 → col_values (table generated_world) j ≡ₚ seqZ 1 9)
  ∧ (∀ b, b < 9 → block_values (table generated_world) b ≡ₚ seqZ 1 9).
Proof.
  assert (table_wf (table empty_world)) as Hwf by table_shape.
  assert (all_empty (table empty_world)) as He.
  { intros p Hp. apply value_fresh_table. exact Hp. }
  assert (_get_random_table search_fuel 0 0 empty_world
          = Some (true, generated_world)) as Hrun.
  { vm_compute. reflexivity. }
  split; [exact Hrun|].
  exact (get_random_table_true_complete search_fuel empty_world
           generated_world Hwf He Hrun).
Defined.

Lemma empty_board_searches_succeed_witness :
  table_wf (table empty_world) ∧ all_empty (table empty_world)
  ∧ (∃ w', is_possible_sudoku_table empty_world = Some (true, w'))
  ∧ (∃ w', _get_random_table search_fuel 0 0 empty_world = Some (true, w')).
Proof.
  assert (table_wf (table empty_world)) as Hwf by table_shape.
  assert (all_empty (table empty_world)) as He.
  { intros p Hp. apply value_fresh_table. exact Hp. }
  split; [exact Hwf|]. split; [exact He|].
  exact (empty_board_searches_succeed empty_world Hwf He).
Defined.

Lemma is_possible_sudoku_table_writes_empty_only_witness :
  table_wf (table sample_world)
  ∧ ∃ r w' new, is_possible_sudoku_table sample_world = Some (r, w')
      ∧ writes w' = writes sample_world ++ new
      ∧ (∀ i j v, (i, j, v) ∈ new →
           in_grid (i, j) ∧ value (table sample_world) (i, j) = EMPTY_VAL)
      ∧ ((∀ p, in_grid p → clickable (table sample_world) p = false →
             value (table sample_world) p ≠ EMPTY_VAL) →
         ∀ i j v, (i, j, v) ∈ new →
           clickable (table sample_world) (i, j) = true).
Proof.
  assert (table_wf (table sample_world)) as Hwf by table_shape.
  split; [exact Hwf|].
  exact (is_possible_sudoku_table_writes_empty_only sample_world Hwf).
Defined.

Lemma is_sudoku_valid_clear_cells_witness :
  is_sudoku_valid solved_table = true
  ∧ is_sudoku_valid (clear_cells [(0, 1); (4, 4); (8, 8)] solved_table) = true.
Proof.
  assert (table_wf solved_table) as Hwf by table_shape.
  assert (Forall in_grid [(0, 1); (4, 4); (8, 8)]) as Hps.
  { repeat constructor; simpl; lia. }
  assert (is_sudoku_valid solved_table = true) as Hv by reflexivity.
  split; [exact Hv|].
  exact (is_sudoku_valid_clear_cells solved_table _ Hwf Hps Hv).
Defined.

Lemma searches_terminate_witness :
  table_wf (table sample_world) ∧ 81 - start_idx 0 0 < search_fuel
  ∧ (∃ r w', backtracing search_fuel 0 0 sample_world = Some (r, w')
       ∧ ∀ fuel', search_fuel ≤ fuel' →
           backtracing fuel' 0 0 sample_world = Some (r, w'))
  ∧ (∃ r w', _get_random_table search_fuel 0 0 sample_world = Some (r, w')
       ∧ ∀ fuel', search_fuel ≤ fuel' →
           _get_random_table fuel' 0 0 sample_world = Some (r, w')).
Proof.
  assert (table_wf (table sample_world)) as Hwf by table_shape.
  assert (81 - start_idx 0 0 < search_fuel) as Hfuel by (vm_compute; lia).
  split; [exact Hwf|]. split; [exact Hfuel|].
  exact (searches_terminate sample_world 0 0 search_fuel Hwf Hfuel).
Defined.

Lemma is_sudoku_valid_accepts_out_of_range_witness :
  value odd_table (0, 0) = 0%Z ∧ value odd_table (0, 1) = 10%Z
  ∧ is_sudoku_valid odd_table = true.
Proof.
  assert (table_wf odd_table) as Hwf by table_shape.
  assert (in_grid (0, 0)) as Hp by (split; simpl; lia).
  assert (value odd_table (0, 0) ≠ EMPTY_VAL) as He by (vm_compute; lia).
  assert (¬ is_digit (value odd_table (0, 0))) as Hd.
  { unfold is_digit. vm_compute. intros [H _]. apply H. reflexivity. }
  assert (consistent odd_table) as Hc.
  { apply is_sudoku_valid_consistent. reflexivity. }
  split; [reflexivity|]. split; [reflexivity|].
  exact (is_sudoku_valid_accepts_out_of_range odd_table (0, 0) Hwf Hp He Hd Hc).
Defined.

(** * More of the constraint engine *)

(** ** Fields that an assignment leaves alone *)

Lemma cell_at_alter_proj {A} (g : Cell → A) (f : Cell → Cell) i j t a b :
  (∀ c, g (f c) = g c) →
  g (cell_at (alter (alter f j) i t) a b) = g (cell_at t a b).
Proof.
  intros Hg. unfold cell_at. rewrite list_lookup_total_alter.
  case_decide as H1; [|done]. destruct H1 as [-> _].
  rewrite list_lookup_total_alter. case_decide as H2; [|done].
  destruct H2 as [-> _]. apply Hg.
Qed.

(** Everything about a cell but its value and its clickability. *)
Definition cell_frame (c : Cell) : nat * nat * bool * bool :=
  (cell_i c, cell_j c, is_active c, is_valid c).

Lemma cell_frame_set_val i j v t a b :
  cell_frame (cell_at (set_val i j v t) a b) = cell_frame (cell_at t a b).
Proof. by apply cell_at_alter_proj. Qed.

Lemma cell_frame_set_clickable i j c t a b :
  cell_frame (cell_at (set_clickable i j c t) a b)
  = cell_frame (cell_at t a b).
Proof. by apply cell_at_alter_proj. Qed.

Lemma cell_frame_fresh_table p :
  in_grid p → cell_frame (cell_at fresh_table p.1 p.2) = (p.1, p.2, false, true).
Proof.
  intros Hp%elem_of_positions. revert p Hp. apply Forall_forall.
  apply (bool_decide_unpack (Forall _ positions)). by vm_compute.
Qed.

(** ** Inconsistent boards *)

Lemma duplicate_not_consistent t p q :
  in_grid p → in_grid q → p ≠ q → same_unit p q →
  value t p ≠ EMPTY_VAL → value t p = value t q → ¬ consistent t.
Proof.
  intros Hp Hq Hne Hu He Hv Hc.
  apply (Hc p q); try done. congruence.
Qed.

Section engine_extras.
Context {Rng : Type} `{!Random Rng}.

(** X1: on a board that holds the same value in two distinct cells of one
    row, column or block, [is_sudoku_valid] is false and both searches
    return false at the first step, leaving the table, the generator and
    the history of assignments as they were. *)
Theorem duplicate_rejected_at_once (w : World Rng) (p q : nat * nat)
    (fuel i j : nat) :
  table_wf (table w) → in_grid p → in_grid q → p ≠ q → same_unit p q →
  value (table w) p ≠ EMPTY_VAL → value (table w) p = value (table w) q →
  is_sudoku_valid (table w) = false
  ∧ is_possible_sudoku_table w = Some (false, w)
  ∧ backtracing (S fuel) i j w = Some (false, w)
  ∧ _get_random_table (S fuel) i j w = Some (false, w).
Proof.
  intros _ Hp Hq Hne Hu He Hv.
  assert (is_sudoku_valid (table w) = false) as Hbad.
  { destruct (is_sudoku_valid (table w)) eqn:Hvalid; [|done].
    apply is_sudoku_valid_consistent in Hvalid.
    by destruct (duplicate_not_consistent (table w) p q). }
  assert (∀ n, backtracing (S n) i j w = Some (false, w)) as Hcheck.
  { intros n. simpl. by rewrite Hbad. }
  assert (∀ n, backtracing (S n) 0 0 w = Some (false, w)) as Htop.
  { intros n. simpl. by rewrite Hbad. }
  split; [done|]. split; [apply (Htop 81)|]. split; [apply Hcheck|].
  simpl. by rewrite Hbad.
Qed.

(** The generation search leaves the cells before its start index alone. *)
Lemma get_random_table_frame fuel i j (w : World Rng) r w' q :
  table_wf (table w) → in_grid q → idx q < start_idx i j →
  _get_random_table fuel i j w = Some (r, w') →
  table_wf (table w') ∧ value (table w') q = value (table w) q.
Proof.
  intros Hwf Hq. revert i j w r w' Hwf.
  induction fuel as [|fuel IH]; intros i j w r w' Hwf Hlt; [done|].
  simpl. destruct (negb (is_sudoku_valid (table w))); [by intros [= <- <-]|].
  destruct (next_row i j) as [i' j'] eqn:Hn.
  apply next_row_spec in Hn as (Hj & Hs & Hs'). rewrite Hs in Hlt.
  destruct (decide (9 ≤ i')) as [|Hi]; [by intros [= <- <-]|].
  assert (in_grid (i', j')) as Hp by (split; simpl; lia).
  destruct (shuffle _ _) as [vals g].
  apply (fill_vals_preserves
           (λ t, table_wf t ∧ value t q = value (table w) q)); [| |done].
  - intros v t [Ht Hv]. split; [by apply set_val_wf|].
    rewrite value_set_val_ne; [done..|]. intros ->. lia.
  - intros w1 r1 w1' [Hwf1 Hv1] Hrec.
    apply IH in Hrec as [? ?]; [split; [done|congruence]|done|].
    rewrite Hs'. lia.
Qed.

Lemma fill_vals_false_empty rec i j vals (w : World Rng) w' :
  (∀ w r w', table_wf (table w) → rec w = Some (r, w') →
     table_wf (table w')) →
  table_wf (table w) → in_grid (i, j) → vals ≠ [] →
  fill_vals rec i j vals w = Some (false, w') →
  value (table w') (i, j) = EMPTY_VAL.
Proof.
  intros Hrec. revert w. induction vals as [|v vals IH]; intros w Hwf Hp Hne;
    [done|]. simpl.
  destruct (rec (assign i j v w)) as [[r1 w1]|] eqn:Hr; [|done].
  apply Hrec in Hr; [|by apply set_val_wf]. destruct r1; [done|].
  destruct vals as [|v' vals].
  - intros [= <-]. simpl. by apply value_set_val_eq.
  - apply IH; [by apply set_val_wf|done..].
Qed.

Lemma fill_vals_true_digit rec i j vals (w : World Rng) w' :
  (∀ w r w', table_wf (table w) → rec w = Some (r, w') →
     table_wf (table w') ∧ value (table w') (i, j) = value (table w) (i, j)) →
  table_wf (table w) → in_grid (i, j) → (∀ v, v ∈ vals → is_digit v) →
  fill_vals rec i j vals w = Some (true, w') →
  is_digit (value (table w') (i, j)).
Proof.
  intros Hrec. revert w. induction vals as [|v vals IH];
    intros w Hwf Hp Hvals; [done|]. simpl.
  destruct (rec (assign i j v w)) as [[r1 w1]|] eqn:Hr; [|done].
  apply Hrec in Hr as [Hwf1 Hv1]; [|by apply set_val_wf].
  simpl in Hv1. rewrite value_set_val_eq in Hv1 by done. destruct r1.
  - intros [= <-]. rewrite Hv1. apply Hvals. by left.
  - apply IH; [by apply set_val_wf|done|].
    intros v' Hv'. apply Hvals. by right.
Qed.

(** X2: unlike the solvability search, [_get_random_table] does not skip
    a filled cell: on a board [is_sudoku_valid] accepts, whatever the cell
    at the start position held, it holds a digit after a true result and
    is empty after a false one, and the cells before the start position
    keep their values. *)
Theorem get_random_table_overwrites (w : World Rng) (fuel i j : nat) :
  table_wf (table w) → is_sudoku_valid (table w) = true →
  in_grid (next_row i j) → 81 - start_idx i j < fuel →
  ∃ r w', _get_random_table fuel i j w = Some (r, w')
    ∧ (if r then is_digit (value (table w') (next_row i j))
       else value (table w') (next_row i j) = EMPTY_VAL)
    ∧ ∀ q, in_grid q → idx q < start_idx i j →
        value (table w') q = value (table w) q.
Proof.
  intros Hwf Hvalid Hp Hfuel.
  destruct (get_random_table_total fuel i j w Hfuel) as [[r w'] Hrun].
  exists r, w'. split; [done|]. split.
  2:{ intros q Hq Hlt. by eapply get_random_table_frame. }
  destruct fuel as [|fuel]; [done|]. simpl in Hrun.
  rewrite Hvalid in Hrun. simpl in Hrun.
  destruct (next_row i j) as [i' j'] eqn:Hn.
  apply next_row_spec in Hn as (Hj & Hs & Hs').
  destruct Hp as [Hi _]. simpl in Hi.
  destruct (decide (9 ≤ i')); [lia|].
  assert (in_grid (i', j')) as Hp by (split; simpl; lia).
  destruct (shuffle (rng w) (seqZ 1 9)) as [vals g] eqn:Hsh.
  pose proof (shuffled_digits _ _ _ Hsh) as Hvals.
  destruct r.
  - apply fill_vals_true_digit in Hrun; try done.
    + intros w1 r1 w1' Hwf1 Hrec.
      eapply get_random_table_frame; [done..| |done]. rewrite Hs'. lia.
    + intros v Hv. by apply Hvals.
  - apply fill_vals_false_empty in Hrun; try done.
    + intros w1 r1 w1' Hwf1 Hrec.
      by apply (get_random_table_preserves table_wf) in Hrec;
        [|intros; apply set_val_wf|].
    + intros ->. assert (1%Z ∈ @nil Z) as Hin; [|by apply elem_of_nil in Hin].
      apply Hvals. unfold is_digit. lia.
Qed.

End engine_extras.

(** ** Boards that have a completion *)

Lemma has_completion_solvable t : has_completion t ↔ solvable_from 0 t.
Proof.
  unfold has_completion, solvable_from.
  split; intros (t' & Hc & Hcons); exists t'; (split; [|done]);
    by apply completion_of_completes.
Qed.

Lemma has_completion_ext t1 t2 :
  (∀ p, in_grid p → value t1 p = value t2 p) →
  has_completion t1 → has_completion t2.
Proof.
  intros Heq (t' & [Hwf Hc] & Hcons). exists t'. split; [|done].
  split; [done|]. intros p Hp. rewrite <-(Heq p Hp). by apply Hc.
Qed.

Lemma has_completion_set_empty t a :
  table_wf t → in_grid a →
  value t a = EMPTY_VAL ∨ is_digit (value t a) →
  has_completion t → has_completion (set_val a.1 a.2 EMPTY_VAL t).
Proof.
  intros Hwf Ha Hv (t' & [Hwf' Hc] & Hcons). exists t'. split; [|done].
  split; [done|]. intros p Hp. specialize (Hc p Hp).
  destruct a as [i j]. simpl. rewrite value_set_val by done.
  destruct (decide (p = (i, j))) as [->|Hne]; [|done].
  rewrite decide_True by done.
  destruct (decide (value t (i, j) = EMPTY_VAL)) as [He|He]; [done|].
  rewrite Hc. by destruct Hv.
Qed.

Lemma has_completion_full t t' :
  table_wf t' → full t' → consistent t' →
  (∀ p, in_grid p → value t p = EMPTY_VAL ∨ value t p = value t' p) →
  has_completion t.
Proof.
  intros Hwf Hfull Hcons Hsub. exists t'. split; [|done]. split; [done|].
  intros p Hp. case_decide as He; [by apply Hfull|].
  by destruct (Hsub p Hp).
Qed.

Section is_possible_result.
Context {Rng : Type} `{!Random Rng}.

Lemma is_possible_result (w : World Rng) :
  table_wf (table w) →
  ∃ r w', is_possible_sudoku_table w = Some (r, w')
    ∧ table w' = table w ∧ (r = true ↔ has_completion (table w)).
Proof.
  intros Hwf.
  destruct (backtracing_total search_fuel 0 0 w) as [[r w'] Hrun].
  { unfold search_fuel. lia. }
  exists r, w'. split; [done|].
  apply backtracing_spec in Hrun as (Ht & _ & Hres); [|done].
  split; [done|]. by rewrite has_completion_solvable.
Qed.

(** ** What [generate_table] builds *)

Lemma mask_loop_preserves (P : Table → Prop) l (w : World Rng) ks :
  (∀ i j v t, P t → P (set_val i j v t)) →
  (∀ i j b t, P t → P (set_clickable i j b t)) →
  P (table w) → P (table (foldl (mask_step l) w ks)).
Proof.
  intros Hval Hclick. revert w. induction ks as [|k ks IH]; intros w HP;
    [done|].
  simpl. apply IH. unfold mask_step. destruct (l !!! k) as [i j].
  case_decide; simpl; auto.
Qed.

Lemma generate_table_spec (w : World Rng) :
  ∃ wg w',
    generate_full w = Some (true, wg) ∧ generate_table w = Some w'
    ∧ table_wf (table wg) ∧ full (table wg) ∧ consistent (table wg)
    ∧ table_wf (table w')
    ∧ (∀ p, in_grid p →
         value (table w') p = EMPTY_VAL
         ∨ value (table w') p = value (table wg) p)
    ∧ (∀ p, in_grid p →
         cell_frame (cell_at (table w') p.1 p.2) = (p.1, p.2, false, true)).
Proof.
  assert (empty_from 0 fresh_table) as Hfresh.
  { intros p Hp _. by apply value_fresh_table. }
  destruct (get_random_table_total search_fuel 0 0 (with_table fresh_table w))
    as [[r wg] Hgen].
  { unfold search_fuel. change (start_idx 0 0) with 0. lia. }
  pose proof Hgen as Hspec.
  apply get_random_table_spec in Hspec; [|apply fresh_table_wf|done].
  destruct r.
  2:{ destruct Hspec as [_ Hno]. destruct Hno.
      apply empty_table_solvable; [apply fresh_table_wf|done]. }
  destruct Hspec as [Hc Hvalid]. pose proof Hc as [Hwfg _].
  apply (completes_full _ _ Hfresh) in Hc.
  apply is_sudoku_valid_consistent in Hvalid.
  assert (∀ p, in_grid p →
            cell_frame (cell_at (table wg) p.1 p.2) = (p.1, p.2, false, true))
    as Hframe.
  { apply (get_random_table_preserves
             (λ t, ∀ p, in_grid p →
                cell_frame (cell_at t p.1 p.2) = (p.1, p.2, false, true))
             search_fuel 0 0 (with_table fresh_table w) true wg);
      [| |exact Hgen].
    - intros i j v t Ht p Hp. rewrite cell_frame_set_val. by apply Ht.
    - intros p Hp. by apply cell_frame_fresh_table. }
  destruct (shuffle (rng wg) positions) as [l g] eqn:Hsh.
  assert (l ≡ₚ positions) as Hperm.
  { pose proof (shuffle_perm _ (rng wg) positions) as H.
    by rewrite Hsh in H. }
  assert (NoDup l) as Hnd by (rewrite Hperm; apply NoDup_positions).
  assert (Forall in_grid l) as Hgrid
    by (rewrite Hperm; apply positions_in_grid).
  assert (length l = 81) as Hlen by (by rewrite Hperm).
  destruct (mask_loop_spec l (with_rng g wg) (table wg) 81)
    as [Hwf' Hcells]; [done..|lia|]. cbv zeta in Hwf', Hcells.
  exists wg, (foldl (mask_step l) (with_rng g wg) (seq 0 81)).
  split; [done|]. split.
  { unfold generate_table, generate_full. rewrite Hgen.
    change (i ← seq 0 9; (λ j, (i, j)) <$> seq 0 9) with positions.
    by rewrite Hsh. }
  do 4 (split; [done|]). split.
  - intros p Hp%elem_of_positions. rewrite <-Hperm in Hp.
    apply list_elem_of_lookup in Hp as [k Hk].
    destruct (Hcells k p Hk) as [-> _]. case_decide; auto.
  - apply (mask_loop_preserves
             (λ t, ∀ p, in_grid p →
                cell_frame (cell_at t p.1 p.2) = (p.1, p.2, false, true))).
    + intros i j v t Ht p Hp. rewrite cell_frame_set_val. by apply Ht.
    + intros i j b t Ht p Hp. rewrite cell_frame_set_clickable. by apply Ht.
    + done.
Qed.

(** X3: the puzzle [generate_table] leaves always has a solution:
    [is_sudoku_valid] accepts it, [is_possible_sudoku_table] returns true
    on it, and the board the generation search produced is one of its
    completions. *)
Theorem generate_table_solvable (w : World Rng) :
  ∃ wg w' w'',
    generate_full w = Some (true, wg) ∧ generate_table w = Some w'
    ∧ is_sudoku_valid (table w') = true
    ∧ is_possible_sudoku_table w' = Some (true, w'')
    ∧ completion_of (table w') (table wg) ∧ consistent (table wg).
Proof.
  destruct (generate_table_spec w)
    as (wg & w' & Hgen & Hrun & Hwfg & Hfull & Hcons & Hwf' & Hvals & _).
  assert (has_completion (table w')) as Hsolv.
  { by apply (has_completion_full _ (table wg)). }
  destruct (is_possible_result w' Hwf') as (r & w'' & Hcheck & _ & Hr).
  apply Hr in Hsolv as ->.
  exists wg, w', w''. do 2 (split; [done|]). split.
  { apply is_sudoku_valid_consistent.
    apply (consistent_mono _ (table wg)); [|done].
    intros p Hp. destruct (Hvals p Hp); auto. }
  split; [done|]. split; [|done]. split; [done|].
  intros p Hp. case_decide as He; [by apply Hfull|].
  by destruct (Hvals p Hp).
Qed.

End is_possible_result.

(** * The interaction layer: proofs *)

Lemma cell_at_update (f : Cell → Cell) a p t :
  table_wf t → in_grid a →
  cell_at (alter (alter f a.2) a.1 t) p.1 p.2
  = if decide (p = a) then f (cell_at t a.1 a.2) else cell_at t p.1 p.2.
Proof.
  intros Hwf [Hi Hj]. rewrite cell_at_alter by done.
  destruct p as [i j], a as [ai aj]; simpl.
  destruct (decide (i = ai ∧ j = aj)) as [[-> ->]|Hne].
  - by rewrite decide_True.
  - rewrite decide_False; [done|]. intros [= -> ->]. by apply Hne.
Qed.

(** What releasing the active cell does to it, by the result [r] of the
    solvability check. *)
Definition release (r : bool) (c : Cell) : Cell :=
  if r then with_active false c
  else with_valid true (with_val EMPTY_VAL (with_active false c)).

(** What a key does to the value of the active cell. *)
Definition key_write (key : Key) (c : Cell) : Cell :=
  match key_val key with
  | Some v => with_val v c
  | None => c
  end.

Lemma key_val_digit key v : key_val key = Some v → is_digit v.
Proof. unfold is_digit. destruct key; intros [= <-]; lia. Qed.

Section interaction_proofs.
Context {Rng : Type} `{!Random Rng} {Pos : Type} `{!Pygame Pos}.

Lemma key_down_effect key (g : Game Rng) a :
  table_wf (table (world g)) → in_grid a →
  active_cell g = Some a → clickable (table (world g)) a = true →
  ∃ r w', key_down key g = Some (with_world w' g)
    ∧ table_wf (table w')
    ∧ (r = true ↔ has_completion (table w'))
    ∧ ∀ p, in_grid p →
        cell_at (table w') p.1 p.2
        = if decide (p = a)
          then with_valid r (key_write key (cell_at (table (world g)) a.1 a.2))
          else cell_at (table (world g)) p.1 p.2.
Proof.
  intros Hwf Ha Hact Hclick. unfold key_down. rewrite Hact.
  destruct a as [i j]. unfold clickable in Hclick. simpl in Hclick.
  rewrite Hclick. simpl.
  set (w1 := match key_val key with
             | Some v => assign i j v (world g)
             | None => world g
             end).
  assert (table_wf (table w1)) as Hwf1.
  { unfold w1. destruct (key_val key); [by apply set_val_wf|done]. }
  assert (∀ p, in_grid p →
            cell_at (table w1) p.1 p.2
            = if decide (p = (i, j))
              then key_write key (cell_at (table (world g)) i j)
              else cell_at (table (world g)) p.1 p.2) as Hcells1.
  { intros p Hp. unfold w1, key_write. destruct (key_val key) as [v|].
    - by apply (cell_at_update (with_val v) (i, j)).
    - by case_decide as Hd; [inversion Hd|]. }
  destruct (is_possible_result w1 Hwf1) as (r & w2 & -> & Ht2 & Hr).
  exists r, (update_cell (with_valid r) i j w2).
  split; [done|]. simpl. rewrite Ht2.
  split; [by apply alter_cell_wf|]. split.
  - rewrite Hr. split; apply has_completion_ext; intros p Hp;
      unfold value; by rewrite (cell_at_alter_proj val).
  - intros p Hp. rewrite (cell_at_update (with_valid r) (i, j)) by done.
    case_decide; [|by rewrite Hcells1, decide_False].
    by rewrite (Hcells1 (i, j)), decide_True.
Qed.

Lemma click_cell_effect i j (g : Game Rng) :
  table_wf (table (world g)) → in_grid (i, j) →
  (∀ a, active_cell g = Some a → in_grid a) →
  ∃ r w', click_cell i j g
          = Some {| world := w'; active_cell := Some (i, j); bg := bg g;
                    stdout := stdout g
                              ++ [click_message (cell_at (table w') i j)] |}
    ∧ table_wf (table w')
    ∧ (active_cell g ≠ None →
       r = true ↔ has_completion (table (world g)))
    ∧ ∀ p, in_grid p →
        cell_at (table w') p.1 p.2
        = (if decide (p = (i, j)) then with_active true else id)
            ((if decide (active_cell g = Some p) then release r else id)
               (cell_at (table (world g)) p.1 p.2)).
Proof.
  intros Hwf Hp Hgrid. unfold click_cell.
  destruct (active_cell g) as [[ai aj]|] eqn:Hact.
  - assert (in_grid (ai, aj)) as Ha by by apply Hgrid.
    set (w1 := update_cell (with_active false) ai aj (world g)).
    assert (table_wf (table w1)) as Hwf1 by by apply alter_cell_wf.
    destruct (is_possible_result w1 Hwf1) as (r & w2 & -> & Ht2 & Hr).
    assert (r = true ↔ has_completion (table (world g))) as Hr'.
    { rewrite Hr. split; apply has_completion_ext; intros p Hq;
        unfold value, w1; simpl; by rewrite (cell_at_alter_proj val). }
    assert (∀ p, in_grid p →
              cell_at (table w2) p.1 p.2
              = if decide (p = (ai, aj))
                then with_active false (cell_at (table (world g)) ai aj)
                else cell_at (table (world g)) p.1 p.2) as Hcells2.
    { intros p Hq. rewrite Ht2.
      by apply (cell_at_update (with_active false) (ai, aj)). }
    rewrite <-Ht2 in Hwf1.
    destruct r.
    + exists true, (update_cell (with_active true) i j w2).
      split; [done|]. split; [by apply alter_cell_wf|]. split; [done|].
      intros p Hq. simpl.
      rewrite (cell_at_update (with_active true) (i, j)) by done.
      assert (∀ q, in_grid q →
                cell_at (table w2) q.1 q.2
                = (if decide (Some (ai, aj) = Some q) then release true else id)
                    (cell_at (table (world g)) q.1 q.2)) as Hrel.
      { intros q Hq'. rewrite Hcells2 by done.
        destruct (decide (q = (ai, aj))) as [->|Hne].
        - by rewrite decide_True.
        - rewrite decide_False; [done|]. by intros [= <-]. }
      case_decide; [|by apply Hrel]. subst p. f_equal.
      by apply (Hrel (i, j)).
    + set (w3 := update_cell (with_valid true) ai aj
                   (assign ai aj EMPTY_VAL w2)).
      assert (table_wf (table w3)) as Hwf3.
      { by apply alter_cell_wf, set_val_wf. }
      exists false, (update_cell (with_active true) i j w3).
      split; [done|]. split; [by apply alter_cell_wf|]. split; [done|].
      assert (∀ q, in_grid q →
                cell_at (table w3) q.1 q.2
                = (if decide (Some (ai, aj) = Some q)
                   then release false else id)
                    (cell_at (table (world g)) q.1 q.2)) as Hrel.
      { intros q Hq'. unfold w3. simpl.
        rewrite (cell_at_update (with_valid true) (ai, aj))
          by (by try apply set_val_wf).
        unfold set_val.
        rewrite !(cell_at_update (with_val EMPTY_VAL) (ai, aj)) by done.
        destruct (decide (q = (ai, aj))) as [->|Hne].
        - rewrite !decide_True by done. rewrite (Hcells2 (ai, aj)) by done.
          by rewrite decide_True.
        - rewrite (decide_False (P := Some (ai, aj) = Some q))
            by (by intros [= <-]).
          rewrite Hcells2 by done. by rewrite decide_False. }
      intros p Hq. simpl.
      rewrite (cell_at_update (with_active true) (i, j)) by done.
      case_decide; [|by apply Hrel]. subst p. f_equal.
      by apply (Hrel (i, j)).
  - exists true, (update_cell (with_active true) i j (world g)).
    split; [done|]. split; [by apply alter_cell_wf|]. split; [done|].
    intros p Hq. simpl.
    rewrite (cell_at_update (with_active true) (i, j)) by done.
    case_decide; [by subst|done].
Qed.

End interaction_proofs.

Lemma key_write_frame key c :
  cell_frame (key_write key c) = cell_frame c
  ∧ is_clickable (key_write key c) = is_clickable c
  ∧ (val (key_write key c) = val c ∨ is_digit (val (key_write key c))).
Proof.
  unfold key_write. destruct (key_val key) as [v|] eqn:Hk; [|by auto].
  repeat split; try done. right. by apply key_val_digit in Hk.
Qed.

Lemma value_set_empty_ext t t' a :
  table_wf t → table_wf t' → in_grid a →
  (∀ p, in_grid p → p ≠ a → value t' p = value t p) →
  ∀ p, in_grid p →
    value (set_val a.1 a.2 EMPTY_VAL t) p
    = value (set_val a.1 a.2 EMPTY_VAL t') p.
Proof.
  intros Hwf Hwf' Ha Heq p Hp. destruct a as [i j]. simpl.
  rewrite !value_set_val by done. case_decide; [done|].
  symmetry. by apply Heq.
Qed.

Section invariant_proofs.
Context {Rng : Type} `{!Random Rng} {Pos : Type} `{!Pygame Pos}.

Lemma game_inv_one_move_empty t0 (g : Game Rng) a :
  game_inv t0 g → active_cell g = Some a →
  has_completion (set_val a.1 a.2 EMPTY_VAL (table (world g))).
Proof.
  intros Hinv Hact. destruct (inv_one_move t0 g Hinv) as [Hs|Hm].
  - apply has_completion_set_empty; [apply Hinv|..|done].
    + by apply (inv_active_grid t0 g Hinv).
    + apply Hinv. by apply (inv_active_grid t0 g Hinv).
  - destruct Hm as (a' & Ha' & _ & _ & Hs). congruence.
Qed.

Lemma key_down_inv t0 key (g : Game Rng) :
  game_inv t0 g →
  ∃ g', key_down key g = Some g' ∧ game_inv t0 g'
    ∧ active_cell g' = active_cell g ∧ stdout g' = stdout g
    ∧ bg g' = bg g.
Proof.
  intros Hinv.
  destruct (active_cell g) as [a|] eqn:Hact.
  2:{ exists g. unfold key_down. by rewrite Hact. }
  assert (in_grid a) as Ha by by apply (inv_active_grid t0 g Hinv).
  destruct (clickable (table (world g)) a) eqn:Hclick.
  2:{ exists g. unfold key_down. rewrite Hact. destruct a as [i j].
      unfold clickable in Hclick. simpl in Hclick. by rewrite Hclick. }
  destruct (key_down_effect key g a) as (r & w' & Hrun & Hwf' & Hr & Hcells);
    [apply Hinv|done..|].
  exists (with_world w' g). split; [done|]. split; [|done].
  destruct (key_write_frame key (cell_at (table (world g)) a.1 a.2))
    as (Hframe & Hck & Hval).
  assert (∀ p, in_grid p → p ≠ a →
            cell_at (table w') p.1 p.2 = cell_at (table (world g)) p.1 p.2)
    as Hother.
  { intros p Hp Hne. rewrite Hcells by done. by rewrite decide_False. }
  assert (cell_at (table w') a.1 a.2
          = with_valid r (key_write key (cell_at (table (world g)) a.1 a.2)))
    as Hself.
  { rewrite Hcells by done. by rewrite decide_True. }
  injection Hframe as Hi Hj Hactive _.
  split; simpl.
  - done.
  - intros p Hp. destruct (decide (p = a)) as [->|Hne].
    + rewrite Hself. simpl. rewrite Hi, Hj. by apply Hinv.
    + rewrite Hother by done. by apply Hinv.
  - intros p Hp. unfold value. destruct (decide (p = a)) as [->|Hne].
    + rewrite Hself. simpl. destruct Hval as [->|?]; [|by right].
      by apply (inv_values t0 g Hinv).
    + rewrite Hother by done. by apply (inv_values t0 g Hinv).
  - intros p Hp. unfold clickable. destruct (decide (p = a)) as [->|Hne].
    + rewrite Hself. simpl. rewrite Hck. by apply (inv_clickable t0 g Hinv).
    + rewrite Hother by done. by apply (inv_clickable t0 g Hinv).
  - intros p Hp Hgiven. unfold value. destruct (decide (p = a)) as [->|Hne].
    + rewrite <-(inv_clickable t0 g Hinv) in Hgiven by done. congruence.
    + rewrite Hother by done. by apply (inv_givens t0 g Hinv).
  - rewrite Hact. intros a' [= <-]. done.
  - intros p Hp. unfold active_flag. destruct (decide (p = a)) as [->|Hne].
    + rewrite Hself. simpl. rewrite Hactive.
      by apply (inv_active t0 g Hinv).
    + rewrite Hother by done. by apply (inv_active t0 g Hinv).
  - intros p Hp. unfold valid_flag. destruct (decide (p = a)) as [->|Hne].
    + rewrite Hself. simpl. intros ->. split; [done|].
      intros Hs. by apply Hr in Hs.
    + rewrite Hother by done. intros Hv.
      apply (inv_valid t0 g Hinv) in Hv as [Hv _]; [|done]. congruence.
  - destruct r; [left; by apply Hr|]. right. exists a.
    split; [done|]. split; [|split].
    + unfold clickable. rewrite Hself. simpl. by rewrite Hck.
    + unfold valid_flag. by rewrite Hself.
    + apply (has_completion_ext
               (set_val a.1 a.2 EMPTY_VAL (table (world g)))).
      * apply value_set_empty_ext; [apply Hinv|done..|].
        intros p Hp Hne. unfold value. by rewrite Hother.
      * by apply (game_inv_one_move_empty t0).
Qed.

End invariant_proofs.

(** The line printed for a click on the cell at [p]. *)
Definition click_line (p : nat * nat) : string :=
  ">>> Click on (i, j) = (" +:+ pretty p.1 +:+ ", " +:+ pretty p.2 +:+ ")".

(** What holds of [g'] once a click made the cell at [p] the active cell,
    in terms of the game [g] before the click. *)
Definition clicked {Rng} (g g' : Game Rng) (p : nat * nat) : Prop :=
  active_cell g' = Some p
  ∧ has_completion (table (world g'))
  ∧ (∀ q, in_grid q → valid_flag (table (world g')) q = true)
  ∧ (∃ lines, stdout g' = stdout g ++ lines ++ [click_line p])
  ∧ bg g' = bg g
  ∧ (∀ q, in_grid q →
       value (table (world g')) q = value (table (world g)) q
       ∨ (value (table (world g')) q = EMPTY_VAL
          ∧ active_cell g = Some q ∧ ¬ has_completion (table (world g)))).

Lemma release_frame r c :
  cell_i (release r c) = cell_i c ∧ cell_j (release r c) = cell_j c
  ∧ is_clickable (release r c) = is_clickable c
  ∧ is_active (release r c) = false
  ∧ is_valid (release r c) = (if r then is_valid c else true)
  ∧ val (release r c) = (if r then val c else EMPTY_VAL).
Proof. by destruct r. Qed.

Section click_proofs.
Context {Rng : Type} `{!Random Rng} {Pos : Type} `{!Pygame Pos}.

Lemma clicked_trans (g g1 g2 : Game Rng) p1 p2 :
  clicked g g1 p1 → clicked g1 g2 p2 → clicked g g2 p2.
Proof.
  intros (_ & Hs1 & _ & [l1 Hl1] & Hbg1 & Hv1)
    (Ha & Hs & Hv & [l2 Hl2] & Hbg2 & Hv2).
  split; [done|]. split; [done|]. split; [done|]. split; [|split].
  - exists (l1 ++ [click_line p1] ++ l2).
    rewrite Hl2, Hl1. by rewrite <-!app_assoc.
  - congruence.
  - intros q Hq. destruct (Hv2 q Hq) as [->|(_ & _ & Hno)]; [by apply Hv1|].
    by destruct Hno.
Qed.

Lemma click_cell_inv t0 i j (g : Game Rng) :
  game_inv t0 g → in_grid (i, j) →
  ∃ g', click_cell i j g = Some g' ∧ game_inv t0 g' ∧ clicked g g' (i, j).
Proof.
  intros Hinv Hp.
  destruct (click_cell_effect i j g) as (r & w' & Hrun & Hwf' & Hr & Hcells);
    [apply Hinv|done|apply Hinv|].
  eexists. split; [exact Hrun|]. clear Hrun.
  assert (∀ p, in_grid p →
    let c := cell_at (table (world g)) p.1 p.2 in let c' := cell_at (table w') p.1 p.2 in
    cell_i c' = cell_i c ∧ cell_j c' = cell_j c
    ∧ is_clickable c' = is_clickable c
    ∧ is_active c'
      = (if decide (p = (i, j)) then true
         else if decide ((active_cell g) = Some p) then false else is_active c)
    ∧ is_valid c'
      = (if decide ((active_cell g) = Some p) then (if r then is_valid c else true)
         else is_valid c)
    ∧ val c'
      = (if decide ((active_cell g) = Some p) then (if r then val c else EMPTY_VAL)
         else val c)) as Hproj.
  { intros p Hq c c'. unfold c'. rewrite Hcells by done. fold c.
    pose proof (release_frame r c) as (? & ? & ? & ? & ? & ?).
    by repeat case_decide. }
  assert (∀ p, in_grid p →
            value (table w') p = value (table (world g)) p
            ∨ (value (table w') p = EMPTY_VAL
               ∧ active_cell g = Some p
               ∧ ¬ has_completion (table (world g)))) as Hvals.
  { intros p Hq. destruct (Hproj p Hq) as (_ & _ & _ & _ & _ & Hv).
    unfold value. rewrite Hv. case_decide as HA; [|by left].
    destruct r; [by left|]. right. split; [done|]. split; [done|].
    intros Hs. apply Hr in Hs; [done|by rewrite HA]. }
  assert (∀ p, in_grid p → valid_flag (table w') p = true) as Hvalid.
  { intros p Hq. destruct (Hproj p Hq) as (_ & _ & _ & _ & Hv & _).
    unfold valid_flag. rewrite Hv.
    destruct (is_valid (cell_at (table (world g)) p.1 p.2)) eqn:Hold.
    { case_decide; [by destruct r|done]. }
    apply (inv_valid t0 g Hinv) in Hold as [Hact Hno]; [|done].
    rewrite decide_True by done. destruct r; [|done].
    destruct Hno. apply Hr; [|done]. by rewrite Hact. }
  assert (has_completion (table w')) as Hsolv.
  { destruct (active_cell g) as [a|] eqn:HA.
    - assert (in_grid a) as Ha by by apply (inv_active_grid t0 g Hinv).
      destruct r.
      + apply (has_completion_ext (table (world g))); [|by apply Hr].
        intros p Hq. destruct (Hproj p Hq) as (_ & _ & _ & _ & _ & Hv).
        unfold value. rewrite Hv. by case_decide.
      + apply (has_completion_ext (set_val a.1 a.2 EMPTY_VAL (table (world g))));
          [|by apply (game_inv_one_move_empty t0)].
        intros p Hq. destruct (Hproj p Hq) as (_ & _ & _ & _ & _ & Hv).
        destruct a as [ai aj]. simpl.
        rewrite value_set_val by (done || apply Hinv).
        unfold value at 2. rewrite Hv.
        destruct (decide (p = (ai, aj))) as [->|Hne].
        * by rewrite decide_True.
        * rewrite decide_False; [done|]. by intros [= <-].
    - destruct (inv_one_move t0 g Hinv) as [Hs|(a & Ha & _)];
        [|by rewrite HA in Ha].
      apply (has_completion_ext (table (world g))); [|done].
      intros p Hq. destruct (Hproj p Hq) as (_ & _ & _ & _ & _ & Hv).
      unfold value. by rewrite Hv. }
  assert (∀ p, in_grid p → (active_cell g) = Some p → r = false →
            clickable t0 p = true) as Hreleased.
  { intros p Hq HA ->.
    destruct (inv_one_move t0 g Hinv) as [Hs|(a & Ha & Hck & _)].
    - apply Hr in Hs; [done|by rewrite HA].
    - rewrite HA in Ha. injection Ha as <-.
      by rewrite <-(inv_clickable t0 g Hinv). }
  split; [split; simpl|].
  - done.
  - intros p Hq. destruct (Hproj p Hq) as (-> & -> & _).
    by apply (inv_fields t0 g Hinv).
  - intros p Hq. destruct (Hvals p Hq) as [->|[? _]]; [|by left].
    by apply (inv_values t0 g Hinv).
  - intros p Hq. destruct (Hproj p Hq) as (_ & _ & Hck & _).
    unfold clickable. rewrite Hck. by apply (inv_clickable t0 g Hinv).
  - intros p Hq Hgiven. destruct (Hproj p Hq) as (_ & _ & _ & _ & _ & Hv).
    unfold value at 1. rewrite Hv.
    case_decide as HA; [|by apply (inv_givens t0 g Hinv)].
    destruct r; [by apply (inv_givens t0 g Hinv)|].
    rewrite (Hreleased p) in Hgiven; done.
  - by intros a [= <-].
  - intros p Hq. destruct (Hproj p Hq) as (_ & _ & _ & Hact & _).
    unfold active_flag. rewrite Hact.
    destruct (decide (p = (i, j))) as [->|Hne]; [done|].
    case_decide as HA.
    + split; [done|]. by intros [= <-].
    + split; [|by intros [= <-]]. intros Hold.
      by apply (inv_active t0 g Hinv) in Hold.
  - intros p Hq Hv. by rewrite Hvalid in Hv.
  - by left.
  - split; [done|]. split; [done|]. split; [done|]. simpl.
    split; [|split; [done|done]]. exists [].
    destruct (Hproj (i, j) Hp) as (Hi & Hj & _). simpl in Hi, Hj.
    destruct (inv_fields t0 g Hinv (i, j) Hp) as [Hi0 Hj0].
    simpl in Hi0, Hj0.
    unfold click_message, click_line. simpl.
    by rewrite Hi, Hj, Hi0, Hj0.
Qed.

End click_proofs.

Section event_proofs.
Context {Rng : Type} `{!Random Rng} {Pos : Type} `{!Pygame Pos}.

Lemma collidepoint_fields t0 (g : Game Rng) p mouse_pos :
  game_inv t0 g → in_grid p →
  collidepoint (cell_at (table (world g)) p.1 p.2) mouse_pos
  = Rect_collidepoint p.1 p.2 mouse_pos.
Proof.
  intros Hinv Hp. unfold collidepoint.
  by destruct (inv_fields t0 g Hinv p Hp) as [-> ->].
Qed.

Lemma click_row_inv t0 mouse_pos i js (g : Game Rng) :
  game_inv t0 g → i < 9 → (∀ j, j ∈ js → j < 9) →
  ∃ g', click_row mouse_pos i js g = Some g' ∧ game_inv t0 g'
    ∧ ((g' = g ∧ ∀ j, j ∈ js → Rect_collidepoint i j mouse_pos = false)
       ∨ ∃ j, j ∈ js ∧ Rect_collidepoint i j mouse_pos = true
           ∧ clicked g g' (i, j)).
Proof.
  intros Hinv Hi. induction js as [|j js IH]; intros Hjs; simpl.
  { exists g. split; [done|]. split; [done|]. left. split; [done|].
    intros j Hj. by apply elem_of_nil in Hj. }
  assert (in_grid (i, j)) as Hp.
  { split; [done|]. apply Hjs. by left. }
  rewrite (collidepoint_fields t0 g (i, j)) by done. simpl.
  destruct (Rect_collidepoint i j mouse_pos) eqn:Hhit.
  - destruct (click_cell_inv t0 i j g Hinv Hp) as (g' & Hrun & Hinv' & Hc).
    exists g'. split; [done|]. split; [done|]. right. exists j.
    split; [by left|]. done.
  - destruct IH as (g' & Hrun & Hinv' & Hres).
    { intros j' Hj'. apply Hjs. by right. }
    exists g'. split; [done|]. split; [done|].
    destruct Hres as [[-> Hnone]|(j' & Hj' & Hhit' & Hc)].
    + left. split; [done|]. by intros j' [->|?]%elem_of_cons; [|apply Hnone].
    + right. exists j'. split; [by right|]. done.
Qed.

Lemma click_rows_inv t0 mouse_pos rws (g : Game Rng) :
  game_inv t0 g → (∀ i, i ∈ rws → i < 9) →
  ∃ g', click_rows mouse_pos rws g = Some g' ∧ game_inv t0 g'
    ∧ ((g' = g
        ∧ ∀ i j, i ∈ rws → j < 9 → Rect_collidepoint i j mouse_pos = false)
       ∨ ∃ p, p.1 ∈ rws ∧ in_grid p
           ∧ Rect_collidepoint p.1 p.2 mouse_pos = true ∧ clicked g g' p).
Proof.
  revert g. induction rws as [|i rws IH]; intros g Hinv Hrws; simpl.
  { exists g. split; [done|]. split; [done|]. left. split; [done|].
    intros i j Hi. by apply elem_of_nil in Hi. }
  assert (i < 9) as Hi by (apply Hrws; by left).
  rewrite (table_wf_row _ i (inv_wf t0 g Hinv) Hi).
  destruct (click_row_inv t0 mouse_pos i (seq 0 9) g Hinv Hi)
    as (g1 & -> & Hinv1 & Hrow).
  { intros j Hj%elem_of_seq. lia. }
  destruct (IH g1 Hinv1) as (g' & Hrun & Hinv' & Hrest).
  { intros i' Hi'. apply Hrws. by right. }
  exists g'. split; [done|]. split; [done|].
  destruct Hrest as [[-> Hnone]|(p & Hp1 & Hp & Hhit & Hc)].
  - destruct Hrow as [[-> Hnone1]|(j & Hj%elem_of_seq & Hhit & Hc)].
    + left. split; [done|]. intros i' j [->|Hi']%elem_of_cons Hj.
      * apply Hnone1, elem_of_seq. lia.
      * by apply Hnone.
    + right. exists (i, j). split; [by left|]. split; [|done].
      split; simpl; lia.
  - right. exists p. split; [by right|]. split; [done|]. split; [done|].
    destruct Hrow as [[-> _]|(j & _ & _ & Hc1)]; [done|].
    by eapply clicked_trans.
Qed.

Lemma mouse_down_inv t0 mouse_pos (g : Game Rng) :
  game_inv t0 g →
  ∃ g', mouse_down mouse_pos g = Some g' ∧ game_inv t0 g'
    ∧ ((g' = g
        ∧ ∀ p, in_grid p → Rect_collidepoint p.1 p.2 mouse_pos = false)
       ∨ ∃ p, in_grid p
           ∧ Rect_collidepoint p.1 p.2 mouse_pos = true ∧ clicked g g' p).
Proof.
  intros Hinv. unfold mouse_down.
  destruct (inv_wf t0 g Hinv) as [-> _].
  destruct (click_rows_inv t0 mouse_pos (seq 0 9) g Hinv)
    as (g' & Hrun & Hinv' & Hres).
  { intros i Hi%elem_of_seq. lia. }
  exists g'. split; [done|]. split; [done|].
  destruct Hres as [[-> Hnone]|(p & _ & Hp & Hhit & Hc)].
  - left. split; [done|]. intros p [Hi Hj]. apply Hnone; [|done].
    apply elem_of_seq. lia.
  - right. by exists p.
Qed.

Lemma handle_user_input_inv t0 events (g : Game Rng) :
  game_inv t0 g →
  ∃ out, handle_user_input events g = Some out
    ∧ game_inv t0 (outcome_state out) ∧ bg (outcome_state out) = bg g.
Proof.
  revert g. induction events as [|e events IH]; intros g Hinv; simpl.
  { by exists (Returned g). }
  destruct e as [|key|button mouse_pos|].
  - by exists (Exited g).
  - destruct (key_down_inv t0 key g Hinv) as (g' & -> & Hinv' & _ & _ & Hbg).
    destruct (IH g' Hinv') as (out & Hrun & Hout & Hbg').
    exists out. split; [done|]. split; [done|]. congruence.
  - case_decide; [|by apply IH].
    destruct (mouse_down_inv t0 mouse_pos g Hinv) as (g' & -> & Hinv' & Hres).
    destruct (IH g' Hinv') as (out & Hrun & Hout & Hbg').
    exists out. split; [done|]. split; [done|]. rewrite Hbg'.
    destruct Hres as [[-> _]|(p & _ & _ & Hc)]; [done|]. apply Hc.
  - by apply IH.
Qed.

Lemma game_inv_with_bg t0 b (g : Game Rng) :
  game_inv t0 g → game_inv t0 (with_bg b g).
Proof. by intros []. Qed.

(** The surface after a round that returned shows the table of that
    moment. *)
Definition shown (g : Game Rng) : Prop :=
  bg g = draw_all_cells (table (world g)) [fill BLACK].

Lemma frame_inv t0 events (g : Game Rng) :
  game_inv t0 g →
  ∃ out, frame events g = Some out ∧ game_inv t0 (outcome_state out)
    ∧ (∀ g', out = Returned g' → shown g').
Proof.
  intros Hinv. unfold frame.
  destruct (handle_user_input_inv t0 events (with_bg [fill BLACK] g))
    as (out & -> & Hout & Hbg); [by apply game_inv_with_bg|].
  destruct out as [g'|g']; simpl in *.
  - eexists. split; [done|]. split; [by apply game_inv_with_bg|].
    intros g'' [= <-]. unfold shown. simpl. by rewrite Hbg.
  - eexists. split; [done|]. split; [done|]. by intros g''.
Qed.

Lemma start_inv t0 batches (g : Game Rng) :
  game_inv t0 g →
  ∃ out, start batches g = Some out ∧ game_inv t0 (outcome_state out)
    ∧ (batches ≠ [] → ∀ g', out = Returned g' → shown g').
Proof.
  revert g. induction batches as [|events batches IH]; intros g Hinv; simpl.
  { by exists (Returned g). }
  destruct (frame_inv t0 events g Hinv) as (out & -> & Hout & Hshown).
  destruct out as [g'|g']; simpl in *.
  - destruct (IH g' Hout) as (out & Hrun & Hout' & Hshown').
    exists out. split; [done|]. split; [done|]. intros _ g'' ->.
    destruct batches as [|b batches]; [|by apply Hshown'].
    simpl in Hrun. injection Hrun as <-. by apply Hshown.
  - eexists. split; [done|]. split; [done|]. by intros _ g''.
Qed.

Lemma Game_init_inv (w : World Rng) :
  ∃ g0, Game_init w = Some g0 ∧ game_inv (table (world g0)) g0
    ∧ active_cell g0 = None ∧ stdout g0 = [].
Proof.
  destruct (generate_table_spec w)
    as (wg & w' & _ & Hrun & Hwfg & Hfull & Hcons & Hwf' & Hvals & Hframe).
  exists (mkGame w' None [] []). unfold Game_init. rewrite Hrun.
  split; [done|]. split; [|done]. split; simpl; try done.
  - intros p Hp. specialize (Hframe p Hp).
    by injection Hframe as Hi Hj Ha Hv.
  - intros p Hp. destruct (Hvals p Hp) as [?| ->]; [by left|]. right.
    by apply Hfull.
  - intros p Hp. unfold active_flag. specialize (Hframe p Hp).
    injection Hframe as Hi Hj Ha Hv. by rewrite Ha.
  - intros p Hp. unfold valid_flag. specialize (Hframe p Hp).
    injection Hframe as Hi Hj Ha Hv. by rewrite Hv.
  - left. by apply (has_completion_full _ (table wg)).
Qed.

Lemma main_inv (w : World Rng) (batches : list (list (Event Pos))) :
  ∃ g0 out, Game_init w = Some g0 ∧ main w batches = Some out
    ∧ game_inv (table (world g0)) (outcome_state out)
    ∧ (batches ≠ [] → ∀ g', out = Returned g' → shown g').
Proof.
  destruct (Game_init_inv w) as (g0 & Hinit & Hinv & _).
  destruct (start_inv _ batches g0 Hinv) as (out & Hrun & Hout & Hshown).
  exists g0, out. unfold main. by rewrite Hinit.
Qed.

End event_proofs.

(** ** Drawing *)

(** The commands [draw_all_cells] issues for one cell. *)
Definition cell_cmds (t : Table) (p : nat * nat) : list DrawCmd :=
  let cell := cell_at t p.1 p.2 in
  draw_rect (if _is_in_even_block p.1 p.2 then WHITE else LIGHT_GRAY)
    (cell_i cell) (cell_j cell)
  :: (if is_empty cell then []
      else [blit_text (text cell)
              (if is_clickable cell then (if is_valid cell then BLACK else RED)
               else GRAY)
              (cell_i cell) (cell_j cell)]).

Lemma draw_cell_cmds t i j bg0 :
  draw_cell t i j bg0 = bg0 ++ cell_cmds t (i, j).
Proof.
  unfold draw_cell, cell_cmds, _draw_text. simpl.
  destruct (is_empty (cell_at t i j)); simpl; [done|].
  by rewrite <-app_assoc.
Qed.

Lemma foldl_cmds {A} (f : A → list DrawCmd) l bg0 :
  foldl (λ b x, b ++ f x) bg0 l = bg0 ++ (l ≫= f).
Proof.
  revert bg0. induction l as [|x l IH]; intros bg0; simpl.
  { by rewrite app_nil_r. }
  rewrite IH. by rewrite <-app_assoc.
Qed.

Lemma bind_pairs {A B C} (f : A * B → list C) (x : A) (l : list B) :
  ((λ y, (x, y)) <$> l) ≫= f = l ≫= (λ y, f (x, y)).
Proof. induction l as [|y l IH]; [done|]. simpl. f_equal. exact IH. Qed.

Lemma draw_row_flat t i js bg0 :
  foldl (λ b j, draw_cell t i j b) bg0 js
  = bg0 ++ (js ≫= (λ j, cell_cmds t (i, j))).
Proof.
  revert bg0. induction js as [|j js IH]; intros bg0.
  { symmetry. apply app_nil_r. }
  change (foldl (λ b j, draw_cell t i j b) (draw_cell t i j bg0) js
          = bg0 ++ (cell_cmds t (i, j) ++ (js ≫= (λ j, cell_cmds t (i, j))))).
  rewrite IH, draw_cell_cmds. by rewrite <-app_assoc.
Qed.

Lemma draw_rows_flat t rws js bg0 :
  foldl (λ b i, foldl (λ b j, draw_cell t i j b) b js) bg0 rws
  = bg0 ++ ((i ← rws; (λ j, (i, j)) <$> js) ≫= cell_cmds t).
Proof.
  revert bg0. induction rws as [|i rws IH]; intros bg0.
  { symmetry. apply app_nil_r. }
  change (mbind ?f (i :: rws)) with (f i ++ mbind f rws).
  change (foldl (λ b i, foldl (λ b j, draw_cell t i j b) b js)
            (foldl (λ b j, draw_cell t i j b) bg0 js) rws
          = bg0 ++ ((((λ j, (i, j)) <$> js)
                     ++ (i ← rws; (λ j, (i, j)) <$> js)) ≫= cell_cmds t)).
  rewrite IH, draw_row_flat, bind_app, bind_pairs. by rewrite <-app_assoc.
Qed.

Lemma draw_all_cells_flat t bg0 :
  draw_all_cells t bg0 = bg0 ++ (positions ≫= cell_cmds t).
Proof. apply draw_rows_flat. Qed.

(** ** [_is_in_even_block] *)

From Stdlib Require Import ZifyNat.

Ltac lia_div := zify; Z.to_euclidean_division_equations; lia.

Lemma even_bool_decide n : Nat.even n = bool_decide (n `mod` 2 = 0).
Proof.
  destruct (Nat.even n) eqn:He; symmetry.
  - apply Nat.even_spec in He as [k ->]. apply bool_decide_eq_true_2.
    lia_div.
  - apply bool_decide_eq_false_2. intros Hm.
    assert (Nat.even n = true); [|congruence].
    apply Nat.even_spec. exists (n / 2). lia_div.
Qed.

(** X4: the background of a cell depends only on its 3x3 block, it is
    white exactly on the blocks with an even index, and it changes from
    any block to the block next to it in a row or in a column. *)
Theorem is_in_even_block_checkerboard (i j : nat) :
  _is_in_even_block i j = Nat.even (block_of i j)
  ∧ _is_in_even_block (i + 3) j = negb (_is_in_even_block i j)
  ∧ _is_in_even_block i (j + 3) = negb (_is_in_even_block i j).
Proof.
  unfold _is_in_even_block, block_of. rewrite even_bool_decide.
  split; [apply bool_decide_ext; lia_div|].
  split; destruct (bool_decide ((i / 3 + j / 3) `mod` 2 = 0)) eqn:Hb;
    cbn [negb];
    [apply bool_decide_eq_true_1 in Hb; apply bool_decide_eq_false_2
    |apply bool_decide_eq_false_1 in Hb; apply bool_decide_eq_true_2
    |apply bool_decide_eq_true_1 in Hb; apply bool_decide_eq_false_2
    |apply bool_decide_eq_false_1 in Hb; apply bool_decide_eq_true_2];
    lia_div.
Qed.

(** ** What is on the surface *)

Lemma elem_of_shown (t : Table) (cmd : DrawCmd) :
  cmd ≠ fill BLACK →
  cmd ∈ draw_all_cells t [fill BLACK] ↔ ∃ p, in_grid p ∧ cmd ∈ cell_cmds t p.
Proof.
  intros Hcmd.
  rewrite draw_all_cells_flat, elem_of_app, list_elem_of_bind.
  setoid_rewrite elem_of_positions. split.
  - intros [Hin|(p & Hin & Hp)]; [|by exists p].
    by apply list_elem_of_singleton in Hin.
  - intros (p & Hp & Hin). right. by exists p.
Qed.

(** The colour [_draw_text] gives the digit of the cell at [p]. *)
Definition text_color (t : Table) (p : nat * nat) : Color :=
  if clickable t p then (if valid_flag t p then BLACK else RED) else GRAY.

Section surface_proofs.
Context {Rng : Type}.

Lemma shown_text t0 (g : Game Rng) txt col i j :
  game_inv t0 g →
  blit_text txt col i j ∈ draw_all_cells (table (world g)) [fill BLACK] ↔
  in_grid (i, j) ∧ value (table (world g)) (i, j) ≠ EMPTY_VAL
  ∧ txt = pretty (value (table (world g)) (i, j))
  ∧ col = text_color (table (world g)) (i, j).
Proof.
  intros Hinv. rewrite elem_of_shown by done. split.
  - intros (p & Hp & Hin). unfold cell_cmds in Hin.
    destruct (inv_fields t0 g Hinv p Hp) as [Hi Hj].
    rewrite Hi, Hj in Hin. apply elem_of_cons in Hin as [Hin|Hin]; [done|].
    destruct (is_empty _) eqn:He; [by apply elem_of_nil in Hin|].
    apply list_elem_of_singleton in Hin. injection Hin as -> -> -> ->.
    destruct p as [i j]. split; [done|]. split; [|done].
    by apply bool_decide_eq_false_1 in He.
  - intros (Hp & He & -> & ->). exists (i, j). split; [done|].
    unfold cell_cmds. destruct (inv_fields t0 g Hinv (i, j) Hp) as [Hi Hj].
    rewrite Hi, Hj. right. unfold is_empty. simpl.
    rewrite bool_decide_eq_false_2 by done. by apply list_elem_of_singleton.
Qed.

Lemma shown_rect t0 (g : Game Rng) col i j :
  game_inv t0 g →
  draw_rect col i j ∈ draw_all_cells (table (world g)) [fill BLACK] ↔
  in_grid (i, j)
  ∧ col = (if _is_in_even_block i j then WHITE else LIGHT_GRAY).
Proof.
  intros Hinv. rewrite elem_of_shown by done. split.
  - intros (p & Hp & Hin). unfold cell_cmds in Hin.
    destruct (inv_fields t0 g Hinv p Hp) as [Hi Hj].
    rewrite Hi, Hj in Hin. apply elem_of_cons in Hin as [Hin|Hin].
    + injection Hin as -> -> ->. by destruct p.
    + destruct (is_empty _); [by apply elem_of_nil in Hin|].
      by apply list_elem_of_singleton in Hin.
  - intros (Hp & ->). exists (i, j). split; [done|].
    unfold cell_cmds. destruct (inv_fields t0 g Hinv (i, j) Hp) as [Hi Hj].
    rewrite Hi, Hj. by left.
Qed.

Lemma game_inv_invalid_iff t0 (g : Game Rng) p :
  game_inv t0 g → in_grid p →
  valid_flag (table (world g)) p = false ↔
  active_cell g = Some p ∧ ¬ has_completion (table (world g)).
Proof.
  intros Hinv Hp. split; [by apply (inv_valid t0 g Hinv)|].
  intros [Hact Hno].
  destruct (inv_one_move t0 g Hinv) as [?|(a & Ha & _ & Hv & _)]; [done|].
  congruence.
Qed.

Lemma game_inv_unsolvable t0 (g : Game Rng) :
  game_inv t0 g → ¬ has_completion (table (world g)) →
  ∃ a, active_cell g = Some a ∧ in_grid a
    ∧ clickable (table (world g)) a = true
    ∧ valid_flag (table (world g)) a = false
    ∧ value (table (world g)) a ≠ EMPTY_VAL
    ∧ has_completion (set_val a.1 a.2 EMPTY_VAL (table (world g))).
Proof.
  intros Hinv Hno.
  destruct (inv_one_move t0 g Hinv) as [?|(a & Ha & Hck & Hv & Hs)]; [done|].
  assert (in_grid a) as Hg by by apply (inv_active_grid t0 g Hinv).
  exists a. do 4 (split; [done|]). split; [|done].
  intros He. destruct Hno. revert Hs. apply has_completion_ext.
  intros p Hp. destruct a as [i j]. simpl.
  rewrite value_set_val by (done || apply Hinv).
  case_decide; [by subst|done].
Qed.

End surface_proofs.

(** * The game, in every state it reaches *)

Section program.
Context {Rng : Type} `{!Random Rng} {Pos : Type} `{!Pygame Pos}.

(** X5: whatever events arrive, the program never changes which cells are
    clickable, never changes the value of a cell that is not clickable (a
    given of the puzzle [Game.__init__] built), and every cell holds
    [EMPTY_VAL] or a digit 1..9. *)
Theorem main_keeps_givens (w : World Rng)
    (batches : list (list (Event Pos))) :
  ∃ g0 out, Game_init w = Some g0 ∧ main w batches = Some out
    ∧ ∀ p, in_grid p →
        clickable (table (world (outcome_state out))) p
        = clickable (table (world g0)) p
        ∧ (clickable (table (world g0)) p = false →
           value (table (world (outcome_state out))) p
           = value (table (world g0)) p)
        ∧ (value (table (world (outcome_state out))) p = EMPTY_VAL
           ∨ is_digit (value (table (world (outcome_state out))) p)).
Proof.
  destruct (main_inv w batches) as (g0 & out & Hinit & Hrun & Hinv & _).
  exists g0, out. do 2 (split; [done|]). intros p Hp.
  split; [by apply Hinv|]. split; [by apply Hinv|by apply Hinv].
Qed.

(** X6: in every state the program reaches, the cells flagged [is_active]
    are exactly the cell [active_cell] refers to: none when there is no
    active cell, one otherwise. *)
Theorem main_one_active_cell (w : World Rng)
    (batches : list (list (Event Pos))) :
  ∃ out, main w batches = Some out
    ∧ ∀ p, in_grid p →
        active_flag (table (world (outcome_state out))) p = true
        ↔ active_cell (outcome_state out) = Some p.
Proof.
  destruct (main_inv w batches) as (g0 & out & Hinit & Hrun & Hinv & _).
  exists out. split; [done|]. by apply Hinv.
Qed.

(** X7: in every state the program reaches, a cell is flagged invalid
    exactly when it is the active cell and the board has no completion;
    and when the board has no completion, the active cell is clickable,
    holds a value, and emptying it gives a board that has one. *)
Theorem main_invalid_flag (w : World Rng)
    (batches : list (list (Event Pos))) :
  ∃ out, main w batches = Some out
    ∧ (∀ p, in_grid p →
         valid_flag (table (world (outcome_state out))) p = false
         ↔ active_cell (outcome_state out) = Some p
           ∧ ¬ has_completion (table (world (outcome_state out))))
    ∧ (¬ has_completion (table (world (outcome_state out))) →
       ∃ a, active_cell (outcome_state out) = Some a
         ∧ clickable (table (world (outcome_state out))) a = true
         ∧ value (table (world (outcome_state out))) a ≠ EMPTY_VAL
         ∧ has_completion
             (set_val a.1 a.2 EMPTY_VAL
                (table (world (outcome_state out))))).
Proof.
  destruct (main_inv w batches) as (g0 & out & Hinit & Hrun & Hinv & _).
  exists out. split; [done|]. split.
  - intros p Hp. by eapply game_inv_invalid_iff.
  - intros Hno.
    destruct (game_inv_unsolvable _ _ Hinv Hno)
      as (a & Ha & _ & Hck & _ & Hv & Hs).
    by exists a.
Qed.

(** X8: after every round of [Game.start] that returns, the surface holds
    one rectangle for each cell of the grid, white or light gray by its
    block, and a text for exactly the non-empty cells: the decimal value,
    gray for a cell that is not clickable, else red if the cell is
    flagged invalid and black if not. *)
Theorem main_shows_board (w : World Rng)
    (batches : list (list (Event Pos))) (events : list (Event Pos)) :
  ∃ out, main w (batches ++ [events]) = Some out
    ∧ ∀ g, out = Returned g →
        (∀ col i j, draw_rect col i j ∈ bg g ↔
           in_grid (i, j)
           ∧ col = (if _is_in_even_block i j then WHITE else LIGHT_GRAY))
        ∧ (∀ txt col i j, blit_text txt col i j ∈ bg g ↔
             in_grid (i, j) ∧ value (table (world g)) (i, j) ≠ EMPTY_VAL
             ∧ txt = pretty (value (table (world g)) (i, j))
             ∧ col = text_color (table (world g)) (i, j)).
Proof.
  destruct (main_inv w (batches ++ [events]))
    as (g0 & out & Hinit & Hrun & Hinv & Hshown).
  exists out. split; [done|]. intros g ->.
  rewrite (Hshown ltac:(by destruct batches) g eq_refl). split.
  - intros col i j. by eapply shown_rect.
  - intros txt col i j. by eapply shown_text.
Qed.

(** X9: after every round of [Game.start] that returns, a red digit is on
    the surface exactly when the board has no completion, and a red digit
    is always the digit of the active cell. *)
Theorem main_red_iff_no_completion (w : World Rng)
    (batches : list (list (Event Pos))) (events : list (Event Pos)) :
  ∃ out, main w (batches ++ [events]) = Some out
    ∧ ∀ g, out = Returned g →
        ((∃ txt i j, blit_text txt RED i j ∈ bg g)
         ↔ ¬ has_completion (table (world g)))
        ∧ (∀ txt i j, blit_text txt RED i j ∈ bg g →
             active_cell g = Some (i, j)).
Proof.
  destruct (main_inv w (batches ++ [events]))
    as (g0 & out & Hinit & Hrun & Hinv & Hshown).
  exists out. split; [done|]. intros g ->. simpl in Hinv.
  rewrite (Hshown ltac:(by destruct batches) g eq_refl).
  assert (∀ txt i j,
    blit_text txt RED i j ∈ draw_all_cells (table (world g)) [fill BLACK] →
    active_cell g = Some (i, j) ∧ ¬ has_completion (table (world g)))
    as Hred.
  { intros txt i j (Hp & _ & _ & Hcol)%(shown_text _ _ _ _ _ _ Hinv).
    apply (game_inv_invalid_iff _ _ _ Hinv Hp).
    unfold text_color in Hcol.
    destruct (clickable _ _); [|done]. by destruct (valid_flag _ _). }
  split; [split|].
  - intros (txt & i & j & Hin). by apply Hred in Hin as [_ ?].
  - intros Hno.
    destruct (game_inv_unsolvable _ _ Hinv Hno)
      as ([i j] & Ha & Hg & Hck & Hvf & Hv & _).
    exists (pretty (value (table (world g)) (i, j))), i, j.
    apply (shown_text _ _ _ _ _ _ Hinv). do 3 (split; [done|]).
    unfold text_color. by rewrite Hck, Hvf.
  - intros txt i j Hin. by apply Hred in Hin as [? _].
Qed.

(** X10: a key pressed while a clickable cell is active writes the digit
    of the key into that cell (no value for a key that is no digit),
    leaves every other value alone, and flags the cell valid exactly when
    the board then has a completion; with no active cell, or one that is
    not clickable, the key changes nothing. *)
Theorem key_down_spec (t0 : Table) (key : Key) (g : Game Rng) :
  game_inv t0 g →
  ∃ g', key_down key g = Some g' ∧ game_inv t0 g'
    ∧ active_cell g' = active_cell g ∧ stdout g' = stdout g
    ∧ match active_cell g with
      | Some a =>
          if clickable (table (world g)) a then
            value (table (world g')) a
            = default (value (table (world g)) a) (key_val key)
            ∧ (∀ p, in_grid p → p ≠ a →
                 value (table (world g')) p = value (table (world g)) p)
            ∧ (valid_flag (table (world g')) a = true
               ↔ has_completion (table (world g')))
          else g' = g
      | None => g' = g
      end.
Proof.
  intros Hinv.
  destruct (key_down_inv t0 key g Hinv)
    as (g' & Hrun & Hinv' & Hact & Hout & _).
  exists g'. do 4 (split; [done|]).
  destruct (active_cell g) as [a|] eqn:Ha.
  2:{ unfold key_down in Hrun. rewrite Ha in Hrun. congruence. }
  assert (in_grid a) as Hg by by apply (inv_active_grid t0 g Hinv).
  destruct (clickable (table (world g)) a) eqn:Hck.
  2:{ unfold key_down in Hrun. rewrite Ha in Hrun. destruct a as [i j].
      unfold clickable in Hck. simpl in Hck. rewrite Hck in Hrun.
      simpl in Hrun. congruence. }
  destruct (key_down_effect key g a) as (r & w' & Hrun' & _ & Hr & Hcells);
    [apply Hinv|done..|].
  rewrite Hrun' in Hrun. injection Hrun as <-. simpl.
  split; [|split].
  - unfold value. rewrite Hcells by done. rewrite decide_True by done.
    unfold key_write. simpl. by destruct (key_val key).
  - intros p Hp Hne. unfold value. rewrite Hcells by done.
    by rewrite decide_False.
  - unfold valid_flag. rewrite Hcells by done. rewrite decide_True by done.
    simpl. by rewrite Hr.
Qed.

(** X11: a click with the left button either finds no cell of the grid
    under the mouse and changes nothing, or makes a cell under the mouse
    the active cell and prints its position; the only value a click can
    change is that of the cell that was active, which is emptied exactly
    when the board had no completion; afterwards the board has a
    completion and no cell is flagged invalid. *)
Theorem mouse_down_spec (t0 : Table) (mouse_pos : Pos) (g : Game Rng) :
  game_inv t0 g →
  ∃ g', mouse_down mouse_pos g = Some g' ∧ game_inv t0 g'
    ∧ ((g' = g
        ∧ ∀ p, in_grid p → Rect_collidepoint p.1 p.2 mouse_pos = false)
       ∨ ∃ p, in_grid p ∧ Rect_collidepoint p.1 p.2 mouse_pos = true
           ∧ active_cell g' = Some p
           ∧ has_completion (table (world g'))
           ∧ (∀ q, in_grid q → valid_flag (table (world g')) q = true)
           ∧ (∃ lines, stdout g' = stdout g ++ lines ++ [click_line p])
           ∧ (∀ q, in_grid q →
                value (table (world g')) q = value (table (world g)) q
                ∨ (value (table (world g')) q = EMPTY_VAL
                   ∧ active_cell g = Some q
                   ∧ ¬ has_completion (table (world g))))).
Proof.
  intros Hinv.
  destruct (mouse_down_inv t0 mouse_pos g Hinv) as (g' & Hrun & Hinv' & Hres).
  exists g'. do 2 (split; [done|]).
  destruct Hres as [?|(p & Hp & Hhit & Ha & Hs & Hv & Hl & _ & Hvals)];
    [by left|].
  right. by exists p.
Qed.

End program.

Section more_program.
Context {Rng : Type} `{!Random Rng} {Pos : Type} `{!Pygame Pos}.

(** X12: handling a list of events in one call of [handle_user_input] is
    handling its first part and then, if that call returned, the rest; an
    exit in the first part ends the program there and the rest is never
    looked at. *)
Theorem handle_user_input_app (es1 es2 : list (Event Pos)) (g : Game Rng) :
  handle_user_input (es1 ++ es2) g
  = match handle_user_input es1 g with
    | Some (Returned g1) => handle_user_input es2 g1
    | other => other
    end.
Proof.
  revert g. induction es1 as [|e es1 IH]; intros g; [done|].
  destruct e as [|key|button mouse_pos|]; simpl.
  - done.
  - destruct (key_down key g); [apply IH|done].
  - case_decide; [|apply IH].
    destruct (mouse_down mouse_pos g); [apply IH|done].
  - apply IH.
Qed.

(** X13: the answer of [is_possible_sudoku_table] depends on the values
    of the cells only: not on the state of the random generator, the
    history, or the flags of the cells. *)
Theorem is_possible_sudoku_table_values_only (w1 w2 : World Rng) :
  table_wf (table w1) → table_wf (table w2) →
  (∀ p, in_grid p → value (table w1) p = value (table w2) p) →
  ∃ r w1' w2', is_possible_sudoku_table w1 = Some (r, w1')
    ∧ is_possible_sudoku_table w2 = Some (r, w2').
Proof.
  intros Hwf1 Hwf2 Heq.
  destruct (is_possible_result w1 Hwf1) as (r1 & w1' & Hrun1 & _ & Hr1).
  destruct (is_possible_result w2 Hwf2) as (r2 & w2' & Hrun2 & _ & Hr2).
  exists r1, w1', w2'. split; [done|]. rewrite Hrun2.
  assert (r2 = r1) as ->; [|done].
  destruct r1, r2; try done.
  - assert (false = true); [|done]. apply Hr2.
    apply (has_completion_ext (table w1)); [done|]. by apply Hr1.
  - assert (false = true); [|done]. apply Hr1.
    apply (has_completion_ext (table w2)); [|by apply Hr2].
    intros p Hp. symmetry. by apply Heq.
Qed.

End more_program.

(** * The further properties at concrete boards and games *)

Lemma duplicate_rejected_at_once_witness :
  value (table clash_world) (0, 0) = value (table clash_world) (0, 1)
  ∧ is_sudoku_valid (table clash_world) = false
  ∧ is_possible_sudoku_table clash_world = Some (false, clash_world)
  ∧ backtracing 5 2 3 clash_world = Some (false, clash_world)
  ∧ _get_random_table 5 2 3 clash_world = Some (false, clash_world).
Proof.
  assert (table_wf (table clash_world)) as Hwf by table_shape.
  assert (in_grid (0, 0)) as Hp by (split; simpl; lia).
  assert (in_grid (0, 1)) as Hq by (split; simpl; lia).
  assert ((0, 0) ≠ (0, 1)) as Hne by discriminate.
  assert (same_unit (0, 0) (0, 1)) as Hu by (left; reflexivity).
  assert (value (table clash_world) (0, 0) ≠ EMPTY_VAL) as He
    by (vm_compute; discriminate).
  assert (value (table clash_world) (0, 0) = value (table clash_world) (0, 1))
    as Hv by reflexivity.
  split; [exact Hv|].
  exact (duplicate_rejected_at_once clash_world (0, 0) (0, 1) 4 2 3
           Hwf Hp Hq Hne Hu He Hv).
Defined.

Lemma get_random_table_overwrites_witness :
  value (table sample_world) (0, 0) = 1%Z
  ∧ ∃ r w', _get_random_table search_fuel 0 0 sample_world = Some (r, w')
      ∧ (if r then is_digit (value (table w') (next_row 0 0))
         else value (table w') (next_row 0 0) = EMPTY_VAL)
      ∧ ∀ q, in_grid q → idx q < start_idx 0 0 →
          value (table w') q = value (table sample_world) q.
Proof.
  assert (table_wf (table sample_world)) as Hwf by table_shape.
  assert (is_sudoku_valid (table sample_world) = true) as Hv by reflexivity.
  assert (in_grid (next_row 0 0)) as Hp by (vm_compute; lia).
  assert (81 - start_idx 0 0 < search_fuel) as Hfuel by (vm_compute; lia).
  split; [reflexivity|].
  exact (get_random_table_overwrites sample_world search_fuel 0 0
           Hwf Hv Hp Hfuel).
Defined.

Lemma key_down_spec_witness :
  game_inv (table (world init_game)) clicked_game
  ∧ active_cell clicked_game = Some (0, 0)
  ∧ ∃ g', key_down K_5 clicked_game = Some g'
      ∧ game_inv (table (world init_game)) g'.
Proof.
  assert (game_inv (table (world init_game)) clicked_game) as Hinv.
  { destruct (main_inv empty_world [[MOUSEBUTTONDOWN 1 (0, 0)]])
      as (g0 & out & Hinit & Hrun & Hinv & _).
    unfold clicked_game, init_game. rewrite Hinit, Hrun. exact Hinv. }
  split; [exact Hinv|]. split; [vm_compute; reflexivity|].
  destruct (key_down_spec (table (world init_game)) K_5 clicked_game Hinv)
    as (g' & Hrun & Hinv' & _).
  exists g'. split; [exact Hrun|exact Hinv'].
Defined.

Lemma mouse_down_spec_witness :
  game_inv (table (world init_game)) init_game
  ∧ ∃ g', mouse_down (70, 130) init_game = Some g'
      ∧ game_inv (table (world init_game)) g'.
Proof.
  assert (game_inv (table (world init_game)) init_game) as Hinv.
  { destruct (Game_init_inv empty_world) as (g0 & Hinit & Hinv & _).
    unfold init_game. rewrite Hinit. exact Hinv. }
  split; [exact Hinv|].
  destruct (mouse_down_spec (table (world init_game)) (70, 130) init_game
              Hinv) as (g' & Hrun & Hinv' & _).
  exists g'. split; [exact Hrun|exact Hinv'].
Defined.

Lemma is_possible_sudoku_table_values_only_witness :
  ∃ r w1' w2',
    is_possible_sudoku_table sample_world = Some (r, w1')
    ∧ is_possible_sudoku_table
        (mkWorld (set_clickable 0 0 false sample_table) 7 [(1, 1, 1%Z)])
      = Some (r, w2').
Proof.
  assert (table_wf (table sample_world)) as Hwf1 by table_shape.
  assert (table_wf (table (mkWorld (set_clickable 0 0 false sample_table)
                                   7 [(1, 1, 1%Z)]))) as Hwf2 by table_shape.
  assert (∀ p, in_grid p →
            value (table sample_world) p
            = value (table (mkWorld (set_clickable 0 0 false sample_table)
                                    7 [(1, 1, 1%Z)])) p) as Heq.
  { intros p Hp. symmetry. apply value_set_clickable; [exact Hwf1|].
    split; simpl; lia. }
  exact (is_possible_sudoku_table_values_only sample_world _ Hwf1 Hwf2 Heq).
Defined.
